(** * fabio access-log patterns: the lexer, the pattern compiler, the field
      table and the pattern executor of [logger/pattern.go]

    Go strings are byte strings and are modelled as [string]; a [[]rune] is a
    list of code points ([Z]); a [*bytes.Buffer] is threaded through the
    renderers as the string of bytes written so far; Go's [int] and [int64]
    are [Z]. *)

From Stdlib Require Import ZArith Lia Ascii String.
From stdpp Require Import gmap strings list.

Local Open Scope Z_scope.

#[local] Arguments String.append !s1 s2 : simpl nomatch.

(** ** Byte strings *)

Module Str.

(** [len(s)] *)
Definition len (s : string) : Z := Z.of_nat (String.length s).

(** [s[n:]] on a string; [None] stands for the run-time panic
    "slice bounds out of range". *)
Fixpoint drop (n : nat) (s : string) : option string :=
  match n, s with
  | O, _ => Some s
  | S _, EmptyString => None
  | S n', String _ s' => drop n' s'
  end.

Definition slice_from (s : string) (n : Z) : option string :=
  if n <? 0 then None else drop (Z.to_nat n) s.

(** [strings.IndexByte]: first position of [c], or [-1]. *)
Fixpoint index_byte (s : string) (c : ascii) : Z :=
  match s with
  | EmptyString => -1
  | String x s' =>
      if Ascii.eqb x c then 0
      else let k := index_byte s' c in if k <? 0 then -1 else k + 1
  end.

(** [strings.LastIndexByte]: last position of [c], or [-1]. *)
Fixpoint last_index_byte (s : string) (c : ascii) : Z :=
  match s with
  | EmptyString => -1
  | String x s' =>
      let k := last_index_byte s' c in
      if 0 <=? k then k + 1 else if Ascii.eqb x c then 0 else -1
  end.

End Str.

(** ** Runes and UTF-8

    [[]rune(format)] decodes a string into code points and [string(s[:n])]
    encodes them again; both follow the language definition: a byte that
    does not start a well-formed encoding decodes to U+FFFD and counts for
    one byte, and a value that is no Unicode scalar value encodes as U+FFFD. *)

Definition rune := Z.

Definition chr (c : ascii) : rune := Z.of_N (N_of_ascii c).
Definition byte_of (z : Z) : ascii := ascii_of_N (Z.to_N z).
Global Arguments chr : simpl never.

Definition RuneError : rune := 65533.

Definition valid_rune (r : rune) : bool :=
  (0 <=? r) && (r <? 55296) || (57343 <? r) && (r <=? 1114111).

Definition encode_rune (r : rune) : string :=
  let r := if valid_rune r then r else RuneError in
  if r <? 128 then String (byte_of r) ""
  else if r <? 2048 then
    String (byte_of (192 + Z.shiftr r 6))
      (String (byte_of (128 + Z.land r 63)) "")
  else if r <? 65536 then
    String (byte_of (224 + Z.shiftr r 12))
      (String (byte_of (128 + Z.land (Z.shiftr r 6) 63))
         (String (byte_of (128 + Z.land r 63)) ""))
  else
    String (byte_of (240 + Z.shiftr r 18))
      (String (byte_of (128 + Z.land (Z.shiftr r 12) 63))
         (String (byte_of (128 + Z.land (Z.shiftr r 6) 63))
            (String (byte_of (128 + Z.land r 63)) ""))).

(** [string(rs)] for [rs : []rune] *)
Fixpoint string_of_runes (rs : list rune) : string :=
  match rs with
  | [] => ""
  | r :: rs' => encode_rune r +:+ string_of_runes rs'
  end.

Definition in_range (lo hi : Z) (c : ascii) : bool :=
  (lo <=? chr c) && (chr c <=? hi).

Definition cont (c : ascii) : Z := Z.land (chr c) 63.

(** [[]rune(s)] for [s : string] *)
Fixpoint runes_of_string (s : string) : list rune :=
  match s with
  | EmptyString => []
  | String b0 s1 =>
      let x := chr b0 in
      let bad := RuneError :: runes_of_string s1 in
      if x <? 128 then x :: runes_of_string s1
      else if x <? 194 then bad
      else if x <? 224 then
        match s1 with
        | String b1 s2 =>
            if in_range 128 191 b1
            then (Z.land x 31 * 64 + cont b1) :: runes_of_string s2
            else bad
        | _ => bad
        end
      else if x <? 240 then
        match s1 with
        | String b1 (String b2 s3 as s2) =>
            let lo := if x =? 224 then 160 else 128 in
            let hi := if x =? 237 then 159 else 191 in
            if in_range lo hi b1 && in_range 128 191 b2
            then (Z.land x 15 * 4096 + cont b1 * 64 + cont b2)
                   :: runes_of_string s3
            else bad
        | _ => bad
        end
      else if x <? 245 then
        match s1 with
        | String b1 (String b2 (String b3 s4 as s3) as s2) =>
            let lo := if x =? 240 then 144 else 128 in
            let hi := if x =? 244 then 143 else 191 in
            if in_range lo hi b1 && in_range 128 191 b2 && in_range 128 191 b3
            then (Z.land x 7 * 262144 + cont b1 * 4096 + cont b2 * 64 + cont b3)
                   :: runes_of_string s4
            else bad
        | _ => bad
        end
      else bad
  end.

(** ** The lexer *)

Inductive itemType := itemText | itemField | itemHeader.

Inductive state :=
  stateStart | stateText | stateDollar | stateField | stateDot | stateHeader.

Definition isIDChar (r : rune) : bool :=
  (chr "a" <=? r) && (r <=? chr "z") || (chr "A" <=? r) && (r <=? chr "Z")
  || (chr "0" <=? r) && (r <=? chr "9") || (r =? chr "_") || (r =? chr "-").

(** What one iteration of [for i, r := range s] does: go on in a state, or
    return a token. *)
Inductive action :=
| Goto (st : state)
| Emit (typ : itemType) (n : Z).

Definition step (s : list rune) (st : state) (i : Z) (r : rune) : action :=
  match st with
  | stateStart =>
      if r =? chr "$" then Goto stateDollar else Goto stateText
  | stateText =>
      if r =? chr "$" then Emit itemText i else Goto stateText
  | stateDollar =>
      if isIDChar r then Goto stateField else Goto stateText
  | stateField =>
      if r =? chr "." then
        if String.eqb (string_of_runes (take (Z.to_nat i) s)) "$header"
        then Goto stateDot
        else Emit itemField i
      else if isIDChar r then Goto stateField
      else Emit itemField i
  | stateDot =>
      if isIDChar r then Goto stateHeader else Emit itemField i
  | stateHeader =>
      if isIDChar r then Goto stateHeader else Emit itemHeader i
  end.

(** The [switch state] after the loop. *)
Definition at_end (st : state) (len_s : Z) : itemType * Z :=
  match st with
  | stateDot => (itemField, len_s - 1)
  | stateField => (itemField, len_s)
  | stateHeader => (itemHeader, len_s)
  | _ => (itemText, len_s)
  end.

(** The loop from index [i] on, [rest] being [s[i:]]. *)
Fixpoint lex_loop (s : list rune) (st : state) (i : Z) (rest : list rune)
  : itemType * Z :=
  match rest with
  | [] => at_end st (Z.of_nat (length s))
  | r :: rest' =>
      match step s st i r with
      | Emit typ n => (typ, n)
      | Goto st' => lex_loop s st' (i + 1) rest'
      end
  end.

Definition lex (s : list rune) : itemType * Z := lex_loop s stateStart 0 s.

(** The state in which the loop is after reading the runes [pre] from index
    [i] on, [None] once it has returned. *)
Fixpoint run_states (s : list rune) (st : state) (i : Z) (pre : list rune)
  : option state :=
  match pre with
  | [] => Some st
  | r :: pre' =>
      match step s st i r with
      | Emit _ _ => None
      | Goto st' => run_states s st' (i + 1) pre'
      end
  end.

(** The state of [lex s] after [k] runes. *)
Definition state_after (s : list rune) (k : nat) : option state :=
  run_states s stateStart 0 (take k s).

(** The bytes of an ASCII string, as runes. *)
Fixpoint ascii_runes (s : string) : list rune :=
  match s with
  | EmptyString => []
  | String c s' => chr c :: ascii_runes s'
  end.

Fixpoint all_ascii (s : string) : Prop :=
  match s with
  | EmptyString => True
  | String c s' => chr c < 128 ∧ all_ascii s'
  end.


(** ** Slices of runes

    [s[:n]] and [s[n:]]; [None] stands for the run-time panic on an index
    outside [0..len(s)]. *)

Definition slice_to {A} (s : list A) (n : Z) : option (list A) :=
  if (0 <=? n) && (n <=? Z.of_nat (length s))
  then Some (take (Z.to_nat n) s) else None.

Definition slice_from {A} (s : list A) (n : Z) : option (list A) :=
  if (0 <=? n) && (n <=? Z.of_nat (length s))
  then Some (drop (Z.to_nat n) s) else None.

(** ** The buffer *)

Definition Buffer := string.

Definition Len (b : Buffer) : Z := Str.len b.
Definition WriteString (b : Buffer) (s : string) : Buffer := b +:+ s.
Definition WriteRune (b : Buffer) (r : rune) : Buffer := b +:+ encode_rune r.

(** ** 64-bit integers, times and durations

    A [time.Time] is the instant it denotes, in nanoseconds since the Unix
    epoch, together with the calendar reading the [time] package gives for
    it; [Month] is within 1..12 for every time the package builds. *)

Definition MinInt64 : Z := - 2 ^ 63.
Definition MaxInt64 : Z := 2 ^ 63 - 1.

Definition wrap64 (z : Z) : Z := (z + 2 ^ 63) mod 2 ^ 64 - 2 ^ 63.

Definition Nanosecond_unit : Z := 1.
Definition Microsecond : Z := 1000.
Definition Millisecond : Z := 1000000.
Definition Second_unit : Z := 1000000000.

Record Time := mkTime {
  instant : Z;
  Year : Z;
  Month : Z;
  Day : Z;
  Hour : Z;
  Minute : Z;
  Second : Z
}.

(** [t.Nanosecond()]: the offset within the second, in [0, 999999999]. *)
Definition Nanosecond (t : Time) : Z := instant t mod Second_unit.

(** [t.UnixNano()] *)
Definition UnixNano (t : Time) : Z := wrap64 (instant t).

(** [t.Sub(u).Nanoseconds()]: the difference, held at the least or the
    greatest duration when it does not fit. *)
Definition Sub (t u : Time) : Z :=
  Z.max MinInt64 (Z.min MaxInt64 (instant t - instant u)).

(** ** Requests and responses *)

Record http_Request := mkRequest {
  Method : string;
  RequestURI : string;
  Proto : string;
  Host : string;
  RemoteAddr : string;
  URL_RawQuery : string;
  Header : gmap string (list string)
}.

Record http_Response := mkResponse {
  StatusCode : Z;
  ContentLength : Z;
  Request : http_Request
}.

(** [textproto]'s table of the bytes allowed in a header name. *)
Definition validHeaderFieldByte (c : ascii) : bool :=
  let x := chr c in
  (97 <=? x) && (x <=? 122) || (65 <=? x) && (x <=? 90)
  || (48 <=? x) && (x <=? 57)
  || bool_decide (x ∈ [33; 35; 36; 37; 38; 39; 42; 43; 45; 46; 94; 95; 96; 124; 126]).

Fixpoint all_bytes (P : ascii → bool) (s : string) : bool :=
  match s with
  | EmptyString => true
  | String c s' => P c && all_bytes P s'
  end.

Fixpoint canonical_go (upper : bool) (s : string) : string :=
  match s with
  | EmptyString => EmptyString
  | String c s' =>
      let x := chr c in
      let c' :=
        if upper && (97 <=? x) && (x <=? 122) then byte_of (x - 32)
        else if negb upper && (65 <=? x) && (x <=? 90) then byte_of (x + 32)
        else c in
      String c' (canonical_go (Ascii.eqb c' "-") s')
  end.

(** [textproto.CanonicalMIMEHeaderKey] *)
Definition CanonicalMIMEHeaderKey (s : string) : string :=
  if all_bytes validHeaderFieldByte s then canonical_go true s else s.

(** [h.Get(key)] *)
Definition Header_Get (h : gmap string (list string)) (key : string) : string :=
  match h !! CanonicalMIMEHeaderKey key with
  | Some (v :: _) => v
  | _ => ""
  end.

(** [hostport[a:b]] and [hostport[a:]] where the indices are in range. *)
Definition sub (s : string) (a b : Z) : string :=
  substring (Z.to_nat a) (Z.to_nat (b - a)) s.

Definition from (s : string) (a : Z) : string := sub s a (Str.len s).

Definition byte_at (s : string) (i : Z) : option ascii := get (Z.to_nat i) s.

Definition missingPort : string := "missing port in address".
Definition tooManyColons : string := "too many colons in address".

(** [net.SplitHostPort]: host, port and error. *)
Definition SplitHostPort (hostport : string) : string * string * option string :=
  let addrErr (why : string) := ("", "", Some why) in
  let i := Str.last_index_byte hostport ":" in
  if i <? 0 then addrErr missingPort
  else
    let bracketed :=
      if bool_decide (byte_at hostport 0 = Some "["%char) then
        let end_ := Str.index_byte hostport "]" in
        if end_ <? 0 then inr (addrErr "missing ']' in address")
        else if end_ + 1 =? Str.len hostport then inr (addrErr missingPort)
        else if end_ + 1 =? i then inl (sub hostport 1 end_, 1, end_ + 1)
        else if bool_decide (byte_at hostport (end_ + 1) = Some ":"%char)
             then inr (addrErr tooManyColons)
             else inr (addrErr missingPort)
      else
        let host := sub hostport 0 i in
        if 0 <=? Str.index_byte host ":" then inr (addrErr tooManyColons)
        else inl (host, 0, 0) in
    match bracketed with
    | inr e => e
    | inl (host, j, k) =>
        if 0 <=? Str.index_byte (from hostport j) "[" then
          addrErr "unexpected '[' in address"
        else if 0 <=? Str.index_byte (from hostport k) "]" then
          addrErr "unexpected ']' in address"
        else (host, from hostport (i + 1), None)
    end.

(** ** The numeric formatter *)

(** Modelled from the spec: the ASCII digit of [d], for the numeric
    formatter of section 4.1, whose source ([atoi]) is not part of
    [logger/pattern.go]. *)
Definition digit (d : Z) : ascii := byte_of (chr "0" + d).

(** Modelled from the spec: the digits of the magnitude [m] of section 4.1,
    made the least significant one first and each put in front of the ones
    made before; [fuel] is the room of the scratch array beyond the first
    digit. *)
Fixpoint digits_go (fuel : nat) (m : Z) (acc : string) : string :=
  let acc' := String (digit (m mod 10)) acc in
  match fuel with
  | O => acc'
  | S fuel' => if m / 10 =? 0 then acc' else digits_go fuel' (m / 10) acc'
  end.

(** Modelled from the spec: the decimal representation of a magnitude
    (section 4.1), with room for as many digits as it has bits. *)
Definition digits (m : Z) : string := digits_go (Z.to_nat (Z.log2 m)) m "".

(** Modelled from the spec: the padding of section 4.1, [n] characters
    [0]. *)
Fixpoint zeros (n : nat) : string :=
  match n with
  | O => ""
  | S n' => String "0" (zeros n')
  end.

(** Modelled from the spec: the numeric formatter [atoi(b, i, pad)]. The
    field table and [TestAtoi] call it, its source is not part of
    [logger/pattern.go]. Section 4.1 of the specification: the decimal representation
    of the value, a leading [-] before the magnitude of a negative value,
    zeros on the left while the magnitude has fewer than [pad] digits (the
    sign not counted), the magnitude of the least 64-bit integer included. *)
Definition atoi (b : Buffer) (i : Z) (pad : Z) : Buffer :=
  let ds := digits (Z.abs i) in
  let b := if i <? 0 then WriteRune b (chr "-") else b in
  let b := WriteString b (zeros (Z.to_nat (pad - Str.len ds))) in
  WriteString b ds.

(** ** Fields and patterns *)

(** [field] renders a part of the log line. *)
Definition field := Buffer → Time → Time → http_Response → http_Request → Buffer.

Definition pattern := list field.

(** All renderers in order on one buffer. *)
Definition render (p : pattern) (b : Buffer) (t1 t2 : Time)
    (w : http_Response) (r : http_Request) : Buffer :=
  fold_left (λ b fn, fn b t1 t2 w r) p b.

Definition newline : rune := chr "010".

Definition write (p : pattern) (b : Buffer) (t1 t2 : Time)
    (w : http_Response) (r : http_Request) : Buffer :=
  let b := render p b t1 t2 w r in
  if Len b =? 0 then b else WriteRune b newline.

Definition shortMonthNames : list string :=
  ["---"; "Jan"; "Feb"; "Mar"; "Apr"; "May"; "Jun"; "Jul"; "Aug"; "Sep";
   "Oct"; "Nov"; "Dec"].

Definition month_name (m : Z) : string :=
  default "" (shortMonthNames !! Z.to_nat m).

Definition date_time (b : Buffer) (t2 : Time) : Buffer :=
  let b := atoi b (Year t2) 4 in
  let b := WriteRune b (chr "-") in
  let b := atoi b (Month t2) 2 in
  let b := WriteRune b (chr "-") in
  let b := atoi b (Day t2) 2 in
  let b := WriteRune b (chr "T") in
  let b := atoi b (Hour t2) 2 in
  let b := WriteRune b (chr ":") in
  let b := atoi b (Minute t2) 2 in
  let b := WriteRune b (chr ":") in
  atoi b (Second t2) 2.

Definition response_time (unit_ pad : Z) : field :=
  λ b t1 t2 w r,
    let d := Sub t2 t1 in
    let s := Z.quot d Second_unit in
    let frac := Z.quot (Z.rem d Second_unit) unit_ in
    let b := atoi b s 0 in
    let b := WriteRune b (chr ".") in
    atoi b frac pad.

Definition time_rfc3339_frac (unit_ pad : Z) : field :=
  λ b t1 t2 w r,
    let b := date_time b t2 in
    let b := WriteRune b (chr ".") in
    let b := atoi b (Z.quot (Nanosecond t2) unit_) pad in
    WriteRune b (chr "Z").

Definition remote_host : field :=
  λ b t1 t2 w r,
    let '(host, _, _) := SplitHostPort (RemoteAddr r) in
    WriteString b host.

Definition remote_port : field :=
  λ b t1 t2 w r,
    let '(_, port, _) := SplitHostPort (RemoteAddr r) in
    WriteString b port.

Definition fields_list : list (string * option field) :=
  [ ("$remote_addr", Some (λ b t1 t2 w r, WriteString b (RemoteAddr r)));
    ("$remote_host", Some remote_host);
    ("$remote_port", Some remote_port);
    ("$request", Some (λ b t1 t2 w r,
       let b := WriteString b (Method r) in
       let b := WriteRune b (chr " ") in
       let b := WriteString b (RequestURI r) in
       let b := WriteRune b (chr " ") in
       WriteString b (Proto r)));
    ("$request_args", Some (λ b t1 t2 w r, WriteString b (URL_RawQuery r)));
    ("$request_host", Some (λ b t1 t2 w r, WriteString b (Host r)));
    ("$request_method", Some (λ b t1 t2 w r, WriteString b (Method r)));
    ("$request_uri", Some (λ b t1 t2 w r, WriteString b (RequestURI r)));
    ("$request_proto", Some (λ b t1 t2 w r, WriteString b (Proto r)));
    ("$response_body_size", Some (λ b t1 t2 w r, atoi b (ContentLength w) 0));
    ("$response_status", Some (λ b t1 t2 w r, atoi b (StatusCode w) 0));
    ("$response_time_ms", Some (response_time Millisecond 3));
    ("$response_time_us", Some (response_time Microsecond 6));
    ("$response_time_ns", Some (response_time Nanosecond_unit 9));
    ("$time_unix_ms", Some (λ b t1 t2 w r,
       atoi b (Z.quot (UnixNano t2) Millisecond) 0));
    ("$time_unix_us", Some (λ b t1 t2 w r,
       atoi b (Z.quot (UnixNano t2) Microsecond) 0));
    ("$time_unix_ns", Some (λ b t1 t2 w r, atoi b (UnixNano t2) 0));
    ("$time_common", Some (λ b t1 t2 w r,
       let b := atoi b (Day t2) 2 in
       let b := WriteRune b (chr "/") in
       let b := WriteString b (month_name (Month t2)) in
       let b := WriteRune b (chr "/") in
       let b := atoi b (Year t2) 4 in
       let b := WriteRune b (chr ":") in
       let b := atoi b (Hour t2) 2 in
       let b := WriteRune b (chr ":") in
       let b := atoi b (Minute t2) 2 in
       let b := WriteRune b (chr ":") in
       let b := atoi b (Second t2) 2 in
       WriteString b " +0000"));
    ("$time_rfc3339", Some (λ b t1 t2 w r,
       let b := date_time b t2 in WriteRune b (chr "Z")));
    ("$time_rfc3339_ms", Some (time_rfc3339_frac Millisecond 3));
    ("$time_rfc3339_us", Some (time_rfc3339_frac Microsecond 6));
    ("$time_rfc3339_ns", Some (time_rfc3339_frac Nanosecond_unit 9));
    ("$upstream_addr", Some (λ b t1 t2 w r,
       WriteString b (RemoteAddr (Request w))));
    ("$upstream_host", Some (λ b t1 t2 w r,
       let '(host, _, _) := SplitHostPort (RemoteAddr (Request w)) in
       WriteString b host));
    ("$upstream_port", Some (λ b t1 t2 w r,
       let '(_, port, _) := SplitHostPort (RemoteAddr (Request w)) in
       WriteString b port)) ].

(** [fields] contains the known log fields and their field functions. A Go
    map may hold a nil function under a key, hence the [option]. *)
Definition fields : gmap string (option field) := list_to_map fields_list.

(** [fields[val]]: the function under the key, nil ([None]) without one. *)
Definition index_fields (fields : gmap string (option field)) (val : string)
  : option field :=
  default None (fields !! val).

(** ** The pattern compiler *)

Inductive exec (A : Type) :=
| Returns (a : A)
| Panics
| Timeout.
Arguments Returns {A} a.
Arguments Panics {A}.
Arguments Timeout {A}.

Definition text (s : string) : field := λ b _ _ _ _, WriteString b s.

Definition header (name : string) : field :=
  λ b _ _ _ r, WriteString b (Header_Get (Header r) name).

Definition dquote : string := String "034" "".

(** [fmt.Errorf("invalid field %q", val)]; the text of a Field token holds
    [$], identifier characters and [.] only, which [%q] prints as they are
    between double quotes. *)
Definition invalid_field (val : string) : string :=
  "invalid field " +:+ dquote +:+ val +:+ dquote.

(** The loop of [parse]; [fuel] bounds the number of iterations, and
    [Timeout] is the answer when they do not suffice. The result is the
    pair [(p, err)], a nil pattern being the empty list. *)
Fixpoint parse_loop (fuel : nat) (fields : gmap string (option field))
    (s : list rune) (p : pattern) : exec (pattern * option string) :=
  match fuel with
  | O => Timeout
  | S fuel' =>
      if Z.of_nat (length s) =? 0 then Returns (p, None)
      else
        let '(typ, n) := lex s in
        match slice_to s n, slice_from s n with
        | Some front, Some back =>
            let val := string_of_runes front in
            match typ with
            | itemText => parse_loop fuel' fields back (p ++ [text val])
            | itemHeader =>
                match Str.slice_from val (Str.len "$header.") with
                | Some name => parse_loop fuel' fields back (p ++ [header name])
                | None => Panics
                end
            | itemField =>
                match index_fields fields val with
                | None => Returns ([], Some (invalid_field val))
                | Some f => parse_loop fuel' fields back (p ++ [f])
                end
            end
        | _, _ => Panics
        end
  end.

Definition parse_fuel (fuel : nat) (format : string)
    (fields : gmap string (option field)) : exec (pattern * option string) :=
  parse_loop fuel fields (runes_of_string format) [].

(** One iteration for each rune and one more to see the empty rest. *)
Definition parse (format : string) (fields : gmap string (option field))
  : exec (pattern * option string) :=
  parse_fuel (S (length (runes_of_string format))) format fields.

(** The tokens [parse] gets from [lex] when no field stops it: kind and
    text of each, in order. *)
Fixpoint tokens (fuel : nat) (s : list rune) : list (itemType * list rune) :=
  match fuel with
  | O => []
  | S fuel' =>
      match s with
      | [] => []
      | _ :: _ =>
          let '(typ, n) := lex s in
          (typ, take (Z.to_nat n) s) :: tokens fuel' (drop (Z.to_nat n) s)
      end
  end.

Definition tokenize (s : list rune) : list (itemType * list rune) :=
  tokens (length s) s.

(** ** Auxiliary definitions for the statements *)

(** A non-empty run of identifier characters. *)
Definition ids_ok (ids : list rune) : Prop :=
  ids ≠ [] ∧ Forall (λ r, isIDChar r = true) ids.

(** What the loop of [lex] has read when it is in a state. *)
Definition lex_inv (st : state) (pre : list rune) : Prop :=
  match st with
  | stateStart => pre = []
  | stateText => pre ≠ []
  | stateDollar => pre = [chr "$"]
  | stateField => ∃ ids, pre = chr "$" :: ids ∧ ids_ok ids
  | stateDot => pre = ascii_runes "$header."
  | stateHeader => ∃ ids, pre = ascii_runes "$header." ++ ids ∧ ids_ok ids
  end.

(** The text a token of each kind spans. *)
Definition token_ok (typ : itemType) (tok : list rune) : Prop :=
  match typ with
  | itemText => tok ≠ []
  | itemField =>
      (∃ ids, tok = chr "$" :: ids ∧ ids_ok ids) ∨ tok = ascii_runes "$header."
  | itemHeader => ∃ ids, tok = ascii_runes "$header." ++ ids ∧ ids_ok ids
  end.

(** A [$] at index [k] that no identifier character follows. *)
Definition lone_dollar (s : list rune) (k : nat) : Prop :=
  s !! k = Some (chr "$") ∧
  match s !! S k with
  | Some c => isIDChar c = false
  | None => True
  end.

(** [parse] on the tokens of its input. *)
Fixpoint compile (fields : gmap string (option field))
    (toks : list (itemType * list rune)) (p : pattern)
  : exec (pattern * option string) :=
  match toks with
  | [] => Returns (p, None)
  | (typ, front) :: toks' =>
      let val := string_of_runes front in
      match typ with
      | itemText => compile fields toks' (p ++ [text val])
      | itemHeader =>
          match Str.slice_from val (Str.len "$header.") with
          | Some name => compile fields toks' (p ++ [header name])
          | None => Panics
          end
      | itemField =>
          match index_fields fields val with
          | None => Returns ([], Some (invalid_field val))
          | Some f => compile fields toks' (p ++ [f])
          end
      end
  end.

(** The bytes [%q] prints as they are in the text of a Field token. *)
Definition plain_byte (c : ascii) : bool :=
  isIDChar (chr c) || Ascii.eqb c "$" || Ascii.eqb c ".".

(** A string of decimal digits and the number it writes. *)
Fixpoint all_digits (s : string) : Prop :=
  match s with
  | EmptyString => True
  | String c s' => 48 <= chr c <= 57 ∧ all_digits s'
  end.

Fixpoint digits_value (s : string) (acc : Z) : Z :=
  match s with
  | EmptyString => acc
  | String c s' => digits_value s' (10 * acc + (chr c - 48))
  end.

Definition value (s : string) : Z := digits_value s 0.

(** The sign [atoi] writes. *)
Definition sign_of (v : Z) : string := if v <? 0 then "-" else "".

(** A renderer that only appends, whatever the buffer holds. *)
Definition appends (f : field) : Prop :=
  ∀ b t1 t2 w r, f b t1 t2 w r = b +:+ f "" t1 t2 w r.

(** What [atoi] writes for a value and a width. *)
Definition atoi_str (v pad : Z) : string := atoi "" v pad.

(** The field under [name] writes the whole seconds of the elapsed time, a
    dot, and the rest of it in the unit [unit_], on [pad] digits. *)
Definition renders_elapsed (name : string) (unit_ pad : Z) : Prop :=
  ∃ f : field,
    fields !! name = Some (Some f) ∧
    ∀ (b : Buffer) (t1 t2 : Time) (w : http_Response) (r : http_Request),
      let d := Sub t2 t1 in
      let secs := Z.quot d Second_unit in
      let frac := Z.quot (Z.rem d Second_unit) unit_ in
      ∃ body : string,
        f b t1 t2 w r
          = b +:+ atoi_str secs 0 +:+ "." +:+ sign_of frac +:+ body ∧
        all_digits body ∧ Str.len body = pad ∧ value body = Z.abs frac.

(** ** The values of the tests of the repository *)

Definition test_fields : gmap string (option field) :=
  list_to_map
    [ ("$a", Some (λ b _ _ _ _, WriteString b "aa") : option field);
      ("$b", Some (λ b _ _ _ _, WriteString b "bb") : option field) ].

Definition test_req : http_Request :=
  mkRequest "GET" "/?q=x" "HTTP/1.1" "foo.com" "2.2.2.2:666" "?q=x"
    (list_to_map [ ("User-Agent", ["Mozilla Firefox"]);
                   ("Referer", ["http://foo.com/"]);
                   ("X-Forwarded-For", ["3.3.3.3"]) ]).

Definition test_resp : http_Response :=
  mkResponse 200 1234 (mkRequest "" "" "" "" "5.6.7.8:1234" "" ∅).

Definition test_t1 : Time := mkTime 1451606400000000000 2016 1 1 0 0 0.
Definition test_t2 : Time := mkTime 1451606400123456789 2016 1 1 0 0 0.

(** [New(b, format)] followed by [Log(t1, t2, resp, req)] on a fresh buffer. *)
Definition log_line (flds : gmap string (option field)) (format : string)
  : option string :=
  match parse format flds with
  | Returns (p, None) => Some (write p "" test_t1 test_t2 test_resp test_req)
  | _ => None
  end.

Definition nl (s : string) : string := s +:+ String "010" "".


(** ** Further definitions for statements about the lexer *)

(** The rune that may follow a token of a kind: a [$] ends a text, a rune
    that is no identifier character ends a field or a header. *)
Definition delimiter (typ : itemType) (c : rune) : Prop :=
  match typ with
  | itemText => c = chr "$"
  | _ => isIDChar c = false
  end.

Definition ends_token (typ : itemType) (back : list rune) : Prop :=
  match back with
  | [] => True
  | c :: _ => delimiter typ c
  end.

(** The only [$] of [pre] are its first rune, or its first two. *)
Definition dollars_in_front (pre : list rune) : Prop :=
  ∀ j : nat,
    pre !! j = Some (chr "$") →
    j = 0%nat ∨ (j = 1%nat ∧ pre !! 0%nat = Some (chr "$")).

(** ** Further definitions for statements about the compiler *)

(** The renderer [parse] appends for a token, if it has one. *)
Definition token_field (flds : gmap string (option field))
    (t : itemType * list rune) : option field :=
  let val := string_of_runes t.2 in
  match t.1 with
  | itemText => Some (text val)
  | itemHeader => header <$> Str.slice_from val (Str.len "$header.")
  | itemField => index_fields flds val
  end.

(** A Field token has a function in the table. *)
Definition known (flds : gmap string (option field))
    (t : itemType * list rune) : Prop :=
  t.1 = itemField → index_fields flds (string_of_runes t.2) ≠ None.

Fixpoint concat_strings (l : list string) : string :=
  match l with
  | [] => ""
  | s :: l' => s +:+ concat_strings l'
  end.

(** What the renderer of a token writes with the field table [fields]:
    its own text for a Text token, the value of the header for a Header
    token, what its function writes for a Field token. *)
Definition token_output (t : itemType * list rune) (t1 t2 : Time)
    (w : http_Response) (r : http_Request) : string :=
  let val := string_of_runes t.2 in
  match t.1 with
  | itemText => val
  | itemHeader => Header_Get (Header r) (string_of_runes (drop 8 t.2))
  | itemField =>
      match index_fields fields val with
      | Some f => f "" t1 t2 w r
      | None => ""
      end
  end.

(** The pattern of a sample format. *)
Definition sample_format : string := "$request_method to $header.Referer".

Definition sample_pattern : pattern :=
  match parse sample_format fields with
  | Returns (p, _) => p
  | _ => []
  end.

(** ** Further definitions for statements about the renderers *)

(** ASCII letters in lower case, as [strings.ToLower] does on ASCII. *)
Definition lower_byte (c : ascii) : ascii :=
  let x := chr c in
  if (65 <=? x) && (x <=? 90) then byte_of (x + 32) else c.

Fixpoint to_lower (s : string) : string :=
  match s with
  | EmptyString => EmptyString
  | String c s' => String (lower_byte c) (to_lower s')
  end.

(** A calendar reading with a year of at most four digits. *)
Definition calendar_ok (t : Time) : Prop :=
  0 <= Year t <= 9999 ∧ 1 <= Month t <= 12 ∧ 1 <= Day t <= 31 ∧
  0 <= Hour t <= 23 ∧ 0 <= Minute t <= 59 ∧ 0 <= Second t <= 59.

(** The field under [name] adds [n] bytes to the buffer for the time [t2]. *)
Definition adds_bytes (name : string) (t2 : Time) (n : Z) : Prop :=
  ∃ f : field,
    fields !! name = Some (Some f) ∧
    ∀ (b : Buffer) (t1 : Time) (w : http_Response) (r : http_Request),
      Len (f b t1 t2 w r) = Len b + n.

(** * Renderers as procedures on pointers

    In the source [b], [w] and [r] are pointers: a renderer is handed the
    objects themselves, it may change them, and [w] and [r] may be nil
    ([TestParse] passes a nil response). Above, a renderer is read as a
    function of the values of the response and of the request. Here it is
    read as the procedure it is: it takes the buffer and what [w] and [r]
    point to ([None] for nil) and gives back what it leaves of the three,
    or panics when it goes through a nil pointer. A loop passes what one
    renderer leaves on to the next, and a second execution starts from
    what the first one left. [w.Request] and [r.URL] stay pointers to a
    request and to a URL, as the records have them, and [shortMonthNames],
    the one package variable a renderer reads, is assigned nowhere in the
    package and stays the constant above. *)

Module Proc.

Definition field :=
  Buffer → Time → Time → option http_Response → option http_Request →
  exec (Buffer * option http_Response * option http_Request).

Definition pattern := list field.

(** [p.x] for a pointer [p]: a nil pointer panics. *)
Definition deref {A B : Type} (p : option A) (k : A → exec B) : exec B :=
  match p with
  | Some x => k x
  | None => Panics
  end.

(** The loop of [write]. *)
Fixpoint render (p : pattern) (b : Buffer) (t1 t2 : Time)
    (w : option http_Response) (r : option http_Request)
  : exec (Buffer * option http_Response * option http_Request) :=
  match p with
  | [] => Returns (b, w, r)
  | fn :: p' =>
      match fn b t1 t2 w r with
      | Returns (b', w', r') => render p' b' t1 t2 w' r'
      | Panics => Panics
      | Timeout => Timeout
      end
  end.

Definition write (p : pattern) (b : Buffer) (t1 t2 : Time)
    (w : option http_Response) (r : option http_Request)
  : exec (Buffer * option http_Response * option http_Request) :=
  match render p b t1 t2 w r with
  | Returns (b', w', r') =>
      if Len b' =? 0 then Returns (b', w', r')
      else Returns (WriteRune b' newline, w', r')
  | Panics => Panics
  | Timeout => Timeout
  end.

Definition response_time (unit_ pad : Z) : field :=
  λ b t1 t2 w r,
    let d := Sub t2 t1 in
    let s := Z.quot d Second_unit in
    let frac := Z.quot (Z.rem d Second_unit) unit_ in
    let b := atoi b s 0 in
    let b := WriteRune b (chr ".") in
    Returns (atoi b frac pad, w, r).

Definition time_rfc3339_frac (unit_ pad : Z) : field :=
  λ b t1 t2 w r,
    let b := date_time b t2 in
    let b := WriteRune b (chr ".") in
    let b := atoi b (Z.quot (Nanosecond t2) unit_) pad in
    Returns (WriteRune b (chr "Z"), w, r).

Definition fields_list : list (string * option field) :=
  [ ("$remote_addr", Some (λ b t1 t2 w r,
       deref r (λ r', Returns (WriteString b (RemoteAddr r'), w, r))));
    ("$remote_host", Some (λ b t1 t2 w r,
       deref r (λ r',
         let '(host, _, _) := SplitHostPort (RemoteAddr r') in
         Returns (WriteString b host, w, r))));
    ("$remote_port", Some (λ b t1 t2 w r,
       deref r (λ r',
         let '(_, port, _) := SplitHostPort (RemoteAddr r') in
         Returns (WriteString b port, w, r))));
    ("$request", Some (λ b t1 t2 w r,
       deref r (λ r',
         let b := WriteString b (Method r') in
         let b := WriteRune b (chr " ") in
         let b := WriteString b (RequestURI r') in
         let b := WriteRune b (chr " ") in
         Returns (WriteString b (Proto r'), w, r))));
    ("$request_args", Some (λ b t1 t2 w r,
       deref r (λ r', Returns (WriteString b (URL_RawQuery r'), w, r))));
    ("$request_host", Some (λ b t1 t2 w r,
       deref r (λ r', Returns (WriteString b (Host r'), w, r))));
    ("$request_method", Some (λ b t1 t2 w r,
       deref r (λ r', Returns (WriteString b (Method r'), w, r))));
    ("$request_uri", Some (λ b t1 t2 w r,
       deref r (λ r', Returns (WriteString b (RequestURI r'), w, r))));
    ("$request_proto", Some (λ b t1 t2 w r,
       deref r (λ r', Returns (WriteString b (Proto r'), w, r))));
    ("$response_body_size", Some (λ b t1 t2 w r,
       deref w (λ w', Returns (atoi b (ContentLength w') 0, w, r))));
    ("$response_status", Some (λ b t1 t2 w r,
       deref w (λ w', Returns (atoi b (StatusCode w') 0, w, r))));
    ("$response_time_ms", Some (response_time Millisecond 3));
    ("$response_time_us", Some (response_time Microsecond 6));
    ("$response_time_ns", Some (response_time Nanosecond_unit 9));
    ("$time_unix_ms", Some (λ b t1 t2 w r,
       Returns (atoi b (Z.quot (UnixNano t2) Millisecond) 0, w, r)));
    ("$time_unix_us", Some (λ b t1 t2 w r,
       Returns (atoi b (Z.quot (UnixNano t2) Microsecond) 0, w, r)));
    ("$time_unix_ns", Some (λ b t1 t2 w r,
       Returns (atoi b (UnixNano t2) 0, w, r)));
    ("$time_common", Some (λ b t1 t2 w r,
       let b := atoi b (Day t2) 2 in
       let b := WriteRune b (chr "/") in
       let b := WriteString b (month_name (Month t2)) in
       let b := WriteRune b (chr "/") in
       let b := atoi b (Year t2) 4 in
       let b := WriteRune b (chr ":") in
       let b := atoi b (Hour t2) 2 in
       let b := WriteRune b (chr ":") in
       let b := atoi b (Minute t2) 2 in
       let b := WriteRune b (chr ":") in
       let b := atoi b (Second t2) 2 in
       Returns (WriteString b " +0000", w, r)));
    ("$time_rfc3339", Some (λ b t1 t2 w r,
       let b := date_time b t2 in Returns (WriteRune b (chr "Z"), w, r)));
    ("$time_rfc3339_ms", Some (time_rfc3339_frac Millisecond 3));
    ("$time_rfc3339_us", Some (time_rfc3339_frac Microsecond 6));
    ("$time_rfc3339_ns", Some (time_rfc3339_frac Nanosecond_unit 9));
    ("$upstream_addr", Some (λ b t1 t2 w r,
       deref w (λ w',
         Returns (WriteString b (RemoteAddr (Request w')), w, r))));
    ("$upstream_host", Some (λ b t1 t2 w r,
       deref w (λ w',
         let '(host, _, _) := SplitHostPort (RemoteAddr (Request w')) in
         Returns (WriteString b host, w, r))));
    ("$upstream_port", Some (λ b t1 t2 w r,
       deref w (λ w',
         let '(_, port, _) := SplitHostPort (RemoteAddr (Request w')) in
         Returns (WriteString b port, w, r)))) ].

Definition fields : gmap string (option field) := list_to_map fields_list.

Definition text (s : string) : field :=
  λ b _ _ w r, Returns (WriteString b s, w, r).

Definition header (name : string) : field :=
  λ b _ _ w r,
    deref r (λ r', Returns (WriteString b (Header_Get (Header r') name), w, r)).

(** The loop of [parse], as [parse_loop] above, with these renderers. *)
Fixpoint parse_loop (fuel : nat) (fields : gmap string (option field))
    (s : list rune) (p : pattern) : exec (pattern * option string) :=
  match fuel with
  | O => Timeout
  | S fuel' =>
      if Z.of_nat (length s) =? 0 then Returns (p, None)
      else
        let '(typ, n) := lex s in
        match slice_to s n, slice_from s n with
        | Some front, Some back =>
            let val := string_of_runes front in
            match typ with
            | itemText => parse_loop fuel' fields back (p ++ [text val])
            | itemHeader =>
                match Str.slice_from val (Str.len "$header.") with
                | Some name => parse_loop fuel' fields back (p ++ [header name])
                | None => Panics
                end
            | itemField =>
                match default None (fields !! val) with
                | None => Returns ([], Some (invalid_field val))
                | Some f => parse_loop fuel' fields back (p ++ [f])
                end
            end
        | _, _ => Panics
        end
  end.

Definition parse (format : string) (fields : gmap string (option field))
  : exec (pattern * option string) :=
  parse_loop (S (length (runes_of_string format))) fields
    (runes_of_string format) [].

(** The table of [TestParse]. *)
Definition test_fields : gmap string (option field) :=
  list_to_map
    [ ("$a", Some (λ b _ _ w r, Returns (WriteString b "aa", w, r))
             : option field);
      ("$b", Some (λ b _ _ w r, Returns (WriteString b "bb", w, r))
             : option field) ].

(** The request of [TestParse]; its [URL] is nil and no renderer of the
    test goes through it. *)
Definition test_parse_req : http_Request :=
  mkRequest "" "" "" "" "" ""
    (list_to_map [ ("User-Agent", ["Mozilla Firefox"]);
                   ("X-Forwarded-For", ["3.3.3.3"]) ]).

(** [parse] and then [write] on a fresh buffer, as [TestParse] does with a
    zero time and a nil response: the bytes written, or the panic; [None]
    when [parse] gives no pattern. *)
Definition parse_write (flds : gmap string (option field)) (format : string)
    (t1 t2 : Time) (w : option http_Response) (r : option http_Request)
  : option (exec Buffer) :=
  match parse format flds with
  | Returns (p, None) =>
      Some match write p "" t1 t2 w r with
           | Returns (b, _, _) => Returns b
           | Panics => Panics
           | Timeout => Timeout
           end
  | _ => None
  end.

(** [parse], then [write] on a fresh buffer and [write] again on another
    fresh buffer, with the same times and the same two pointers: the bytes
    of the first and of the second execution. *)
Definition parse_write_twice (flds : gmap string (option field))
    (format : string) (t1 t2 : Time)
    (w : option http_Response) (r : option http_Request)
  : option (exec (Buffer * Buffer)) :=
  match parse format flds with
  | Returns (p, None) =>
      Some match write p "" t1 t2 w r with
           | Returns (b1, w', r') =>
               match write p "" t1 t2 w' r' with
               | Returns (b2, _, _) => Returns (b1, b2)
               | Panics => Panics
               | Timeout => Timeout
               end
           | Panics => Panics
           | Timeout => Timeout
           end
  | _ => None
  end.

(** The pattern of a sample format. *)
Definition sample_pattern : pattern :=
  match parse "$request_method $response_status" fields with
  | Returns (p, _) => p
  | _ => []
  end.

End Proc.



(** The procedure [g] does what the function [f] says when neither pointer
    is nil: it appends the same bytes and leaves response and request. *)
Definition agrees (g : Proc.field) (f : field) : Prop :=
  ∀ b t1 t2 w r,
    g b t1 t2 (Some w) (Some r) = Returns (f b t1 t2 w r, Some w, Some r).

(** A renderer outside the table, of the type of the source: it writes the
    method and then overwrites it in the request,
    [b.WriteString(r.Method); r.Method = "-"]. *)
Definition method_once : Proc.field :=
  λ b _ _ w r,
    Proc.deref r (λ r',
      Returns (WriteString b (Method r'), w,
               Some (mkRequest "-" (RequestURI r') (Proto r') (Host r')
                       (RemoteAddr r') (URL_RawQuery r') (Header r')))).

Definition method_once_fields : gmap string (option Proc.field) :=
  list_to_map [ ("$method_once", Some method_once) ].

Definition zero_time : Time := mkTime (-62135596800000000000) 1 1 1 0 0 0.

(** ** Facts about byte strings *)

Module StrFacts.

Lemma app_nil_l (s : string) : "" +:+ s = s.
Proof. reflexivity. Qed.

Lemma app_nil_r (s : string) : s +:+ "" = s.
Proof. induction s as [|c s IH]; simpl; congruence. Qed.

Lemma app_assoc (s1 s2 s3 : string) : (s1 +:+ s2) +:+ s3 = s1 +:+ s2 +:+ s3.
Proof. induction s1 as [|c s1 IH]; simpl; congruence. Qed.

Lemma length_app (s1 s2 : string) :
  String.length (s1 +:+ s2) = (String.length s1 + String.length s2)%nat.
Proof. induction s1 as [|c s1 IH]; simpl; congruence. Qed.

Lemma drop_app (s1 s2 : string) :
  Str.drop (String.length s1) (s1 +:+ s2) = Some s2.
Proof. induction s1 as [|c s1 IH]; simpl; [by destruct s2 | done]. Qed.

End StrFacts.

(** ** Tokens of some inputs *)

Example lex_text : lex (runes_of_string "ab $c") = (itemText, 3).
Proof. reflexivity. Qed.
Example lex_field : lex (runes_of_string "$abc def") = (itemField, 4).
Proof. reflexivity. Qed.
Example lex_field_dot : lex (runes_of_string "$abc.def") = (itemField, 4).
Proof. reflexivity. Qed.
Example lex_header : lex (runes_of_string "$header.User-Agent x") = (itemHeader, 18).
Proof. reflexivity. Qed.
Example lex_dot_mid : lex (runes_of_string "$header. x") = (itemField, 8).
Proof. reflexivity. Qed.
Example lex_dot_end : lex (runes_of_string "$header.") = (itemField, 7).
Proof. reflexivity. Qed.
Example lex_dollars : lex (runes_of_string "$$foo") = (itemText, 5).
Proof. reflexivity. Qed.
Example lex_lone_dollar : lex (runes_of_string "$") = (itemText, 1).
Proof. reflexivity. Qed.


(** ** Facts about runes and their encoding *)

Lemma isIDChar_spec (r : rune) :
  isIDChar r = true ↔
  97 <= r <= 122 ∨ 65 <= r <= 90 ∨ 48 <= r <= 57 ∨ r = 95 ∨ r = 45.
Proof.
  unfold isIDChar. change (chr "a") with 97. change (chr "z") with 122.
  change (chr "A") with 65. change (chr "Z") with 90.
  change (chr "0") with 48. change (chr "9") with 57.
  change (chr "_") with 95. change (chr "-") with 45.
  rewrite !orb_true_iff, !andb_true_iff, !Z.leb_le, !Z.eqb_eq. lia.
Qed.

Lemma isIDChar_ascii (r : rune) :
  isIDChar r = true → 0 <= r < 128 ∧ r ≠ chr "$" ∧ r ≠ chr ".".
Proof.
  rewrite isIDChar_spec. change (chr "$") with 36. change (chr ".") with 46. lia.
Qed.

Lemma chr_range (c : ascii) : 0 <= chr c < 256.
Proof.
  unfold chr. pose proof (N_ascii_bounded c). lia.
Qed.

Lemma chr_byte_of (z : Z) : 0 <= z < 256 → chr (byte_of z) = z.
Proof.
  intros Hz. unfold chr, byte_of. rewrite N_ascii_embedding; lia.
Qed.

Lemma byte_of_chr (c : ascii) : byte_of (chr c) = c.
Proof.
  unfold chr, byte_of. rewrite N2Z.id. apply ascii_N_embedding.
Qed.

Lemma encode_rune_ascii (r : rune) :
  0 <= r < 128 → encode_rune r = String (byte_of r) "".
Proof.
  intros Hr. unfold encode_rune, valid_rune.
  replace ((0 <=? r) && (r <? 55296) || (57343 <? r) && (r <=? 1114111))
    with true by (symmetry; apply orb_true_iff; left; apply andb_true_iff; lia).
  by replace (r <? 128) with true by lia.
Qed.

(** The first byte of an encoding is below 128 only for a one-byte
    encoding of an ASCII rune. *)
Lemma encode_rune_head (r : rune) :
  ∃ c rest, encode_rune r = String c rest ∧
    (chr c < 128 → rest = "" ∧ 0 <= r < 128 ∧ c = byte_of r).
Proof.
  unfold encode_rune.
  set (r' := if valid_rune r then r else RuneError).
  assert (Hr' : 0 <= r' <= 1114111 ∧ (r' < 128 → r' = r)).
  { subst r'. unfold valid_rune, RuneError.
    destruct ((0 <=? r) && (r <? 55296) || (57343 <? r) && (r <=? 1114111)) eqn:E.
    - apply orb_true_iff in E as [E|E]; apply andb_true_iff in E; lia.
    - lia. }
  destruct Hr' as [Hr' Heq].
  destruct (r' <? 128) eqn:E1.
  { eexists _, _; split; [done|]. intros _. rewrite <- Heq by lia.
    repeat split; lia. }
  assert (Hhi : ∀ k z, 0 <= k → 128 <= z < 256 → chr (byte_of z) < 128 → False).
  { intros k z _ Hz. rewrite chr_byte_of by lia. lia. }
  destruct (r' <? 2048) eqn:E2.
  { eexists _, _; split; [done|]. intros H. exfalso.
    apply (Hhi 0 (192 + Z.shiftr r' 6)); [lia| |done].
    rewrite Z.shiftr_div_pow2 by lia. change (2 ^ 6) with 64.
    Z.to_euclidean_division_equations. lia. }
  destruct (r' <? 65536) eqn:E3.
  { eexists _, _; split; [done|]. intros H. exfalso.
    apply (Hhi 0 (224 + Z.shiftr r' 12)); [lia| |done].
    rewrite Z.shiftr_div_pow2 by lia. change (2 ^ 12) with 4096.
    Z.to_euclidean_division_equations. lia. }
  eexists _, _; split; [done|]. intros H. exfalso.
  apply (Hhi 0 (240 + Z.shiftr r' 18)); [lia| |done].
  rewrite Z.shiftr_div_pow2 by lia. change (2 ^ 18) with 262144.
  Z.to_euclidean_division_equations. lia.
Qed.

(** A rune slice whose encoding is an ASCII string holds the bytes of that
    string. *)
Lemma string_of_runes_ascii_inv (rs : list rune) (str : string) :
  string_of_runes rs = str → all_ascii str → rs = ascii_runes str.
Proof.
  revert str. induction rs as [|r rs IH]; intros str Heq Hasc.
  - simpl in Heq. by subst str.
  - simpl in Heq. destruct (encode_rune_head r) as (c & rest & Henc & Hc).
    rewrite Henc in Heq. simpl in Heq. destruct str as [|c' str']; [done|].
    injection Heq as -> Heq. destruct Hasc as [Hlt Hasc].
    destruct (Hc Hlt) as (-> & Hr & ->). simpl in Heq.
    simpl. rewrite chr_byte_of by lia. f_equal. by apply IH.
Qed.

Lemma string_of_runes_app (rs1 rs2 : list rune) :
  string_of_runes (rs1 ++ rs2) = string_of_runes rs1 +:+ string_of_runes rs2.
Proof.
  induction rs1 as [|r rs1 IH]; simpl; [done|].
  by rewrite IH, StrFacts.app_assoc.
Qed.

(** Identifier characters are encoded in one byte each. *)
Lemma string_of_runes_ids_length (ids : list rune) :
  Forall (λ r, isIDChar r = true) ids →
  String.length (string_of_runes ids) = length ids.
Proof.
  induction 1 as [|r ids Hr _ IH]; simpl; [done|].
  apply isIDChar_ascii in Hr as [Hr _].
  rewrite encode_rune_ascii by done. simpl. by rewrite IH.
Qed.

(** ** The tests of the repository, on the model *)

Example TestParse_rows :
  log_line test_fields "" = Some "" ∧
  log_line test_fields "$a" = Some (nl "aa") ∧
  log_line test_fields "$a $b" = Some (nl "aa bb") ∧
  log_line test_fields ("$a " +:+ dquote +:+ "$header.User-Agent" +:+ dquote)
    = Some (nl ("aa " +:+ dquote +:+ "Mozilla Firefox" +:+ dquote)).
Proof. repeat split; vm_compute; reflexivity. Qed.

Example TestLog_rows :
  Forall (λ '(format, out), log_line fields format = Some (nl out))
    [ ("$header.Referer", "http://foo.com/");
      ("$header.user-agent", "Mozilla Firefox");
      ("$header.X-Forwarded-For", "3.3.3.3");
      ("$request", "GET /?q=x HTTP/1.1");
      ("$request_args", "?q=x");
      ("$request_host", "foo.com");
      ("$request_method", "GET");
      ("$request_uri", "/?q=x");
      ("$request_proto", "HTTP/1.1");
      ("$remote_addr", "2.2.2.2:666");
      ("$remote_host", "2.2.2.2");
      ("$remote_port", "666");
      ("$response_body_size", "1234");
      ("$response_status", "200");
      ("$response_time_ms", "0.123");
      ("$response_time_us", "0.123456");
      ("$response_time_ns", "0.123456789");
      ("$time_rfc3339", "2016-01-01T00:00:00Z");
      ("$time_rfc3339_ms", "2016-01-01T00:00:00.123Z");
      ("$time_rfc3339_us", "2016-01-01T00:00:00.123456Z");
      ("$time_rfc3339_ns", "2016-01-01T00:00:00.123456789Z");
      ("$time_unix_ms", "1451606400123");
      ("$time_unix_us", "1451606400123456");
      ("$time_unix_ns", "1451606400123456789");
      ("$time_common", "01/Jan/2016:00:00:00 +0000");
      ("$upstream_addr", "5.6.7.8:1234");
      ("$upstream_host", "5.6.7.8");
      ("$upstream_port", "1234") ].
Proof. repeat constructor; vm_compute; reflexivity. Qed.

Example TestAtoi_rows :
  Forall (λ '(i, pad, s), atoi "" i pad = s)
    [ (0, 0, "0"); (1, 0, "1"); (-1, 0, "-1"); (12345, 0, "12345");
      (-12345, 0, "-12345");
      (9223372036854775807, 0, "9223372036854775807");
      (-9223372036854775807, 0, "-9223372036854775807");
      (0, 5, "00000"); (1, 5, "00001"); (-1, 5, "-00001");
      (12345, 5, "12345"); (-12345, 5, "-12345");
      (9223372036854775807, 5, "9223372036854775807");
      (-9223372036854775807, 5, "-9223372036854775807") ].
Proof. repeat constructor; vm_compute; reflexivity. Qed.

(** ** The lexer: what each state has read, what each token spans *)

Lemma ids_ok_snoc (ids : list rune) (r : rune) :
  ids_ok ids → isIDChar r = true → ids_ok (ids ++ [r]).
Proof.
  intros [_ Hall] Hr. split; [by destruct ids|].
  apply Forall_app; split; [done | by constructor].
Qed.

Lemma ids_ok_singleton (r : rune) : isIDChar r = true → ids_ok [r].
Proof. intros Hr. split; [done | by constructor]. Qed.

Lemma ids_ok_header : ids_ok (ascii_runes "header").
Proof. split; [done | by repeat constructor]. Qed.

Lemma take_len_app (pre rest : list rune) :
  take (Z.to_nat (Z.of_nat (length pre))) (pre ++ rest) = pre.
Proof. rewrite Nat2Z.id. by rewrite take_app_length. Qed.

(** One iteration keeps the invariant, or returns what was read so far. *)
Lemma step_spec (pre rest : list rune) (r : rune) (st : state) :
  lex_inv st pre →
  match step (pre ++ r :: rest) st (Z.of_nat (length pre)) r with
  | Goto st' => lex_inv st' (pre ++ [r])
  | Emit typ n => n = Z.of_nat (length pre) ∧ token_ok typ pre
  end.
Proof.
  intros Hinv. destruct st; cbv [step lex_inv] in *.
  - subst pre. destruct (r =? chr "$") eqn:E; simpl; [|done].
    apply Z.eqb_eq in E. by subst r.
  - destruct (r =? chr "$"); simpl; [done | by destruct pre].
  - subst pre. destruct (isIDChar r) eqn:E; simpl; [|done].
    exists [r]. split; [done | by apply ids_ok_singleton].
  - destruct Hinv as (ids & -> & Hids).
    destruct (r =? chr ".") eqn:Edot.
    + apply Z.eqb_eq in Edot. subst r.
      rewrite take_len_app.
      destruct (String.eqb _ _) eqn:Eh.
      * apply String.eqb_eq in Eh.
        apply string_of_runes_ascii_inv in Eh; [|by vm_compute].
        by rewrite Eh.
      * split; [done|]. left. by exists ids.
    + destruct (isIDChar r) eqn:E.
      * exists (ids ++ [r]). split; [done | by apply ids_ok_snoc].
      * split; [done|]. left. by exists ids.
  - subst pre. destruct (isIDChar r) eqn:E.
    + exists [r]. split; [done | by apply ids_ok_singleton].
    + split; [done | by right].
  - destruct Hinv as (ids & -> & Hids). destruct (isIDChar r) eqn:E.
    + exists (ids ++ [r]). split; [by rewrite <- app_assoc | by apply ids_ok_snoc].
    + split; [done|]. by exists ids.
Qed.

Lemma token_ok_nonempty (typ : itemType) (tok : list rune) :
  token_ok typ tok → tok ≠ [].
Proof.
  destruct typ; simpl; [done| |].
  - intros [(ids & -> & _) | ->]; done.
  - intros (ids & -> & _). done.
Qed.

(** The loop returns a non-empty prefix of its input, of the shape its kind
    announces. *)
Lemma lex_loop_spec (rest pre : list rune) (st : state) :
  lex_inv st pre → pre ++ rest ≠ [] →
  ∃ typ tok back,
    lex_loop (pre ++ rest) st (Z.of_nat (length pre)) rest
      = (typ, Z.of_nat (length tok)) ∧
    pre ++ rest = tok ++ back ∧ token_ok typ tok.
Proof.
  revert pre st. induction rest as [|r rest IH]; intros pre st Hinv Hne.
  - rewrite app_nil_r in *. simpl.
    destruct st; simpl in *.
    + done.
    + exists itemText, pre, []. by rewrite app_nil_r.
    + exists itemText, pre, []. rewrite app_nil_r. by subst pre.
    + exists itemField, pre, []. rewrite app_nil_r. split_and!; [done..|by left].
    + subst pre. exists itemField, (ascii_runes "$header"), [chr "."].
      split_and!; [done..|]. left. exists (ascii_runes "header").
      split; [done | apply ids_ok_header].
    + exists itemHeader, pre, []. by rewrite app_nil_r.
  - simpl. pose proof (step_spec pre rest r st Hinv) as Hstep.
    destruct (step (pre ++ r :: rest) st (Z.of_nat (length pre)) r)
      as [st'|typ n].
    + destruct (IH (pre ++ [r]) st' Hstep) as (typ & tok & back & Hlex & Hs & Hok).
      { by destruct pre. }
      rewrite <- app_assoc in Hlex, Hs. simpl in Hlex, Hs.
      rewrite length_app in Hlex. simpl in Hlex.
      replace (Z.of_nat (length pre + 1)) with (Z.of_nat (length pre) + 1)
        in Hlex by lia.
      by exists typ, tok, back.
    + destruct Hstep as [-> Hok]. by exists typ, pre, (r :: rest).
Qed.

Lemma lex_spec (s : list rune) :
  s ≠ [] →
  ∃ typ tok back,
    lex s = (typ, Z.of_nat (length tok)) ∧ s = tok ++ back ∧ token_ok typ tok.
Proof.
  intros Hne. by apply (lex_loop_spec s [] stateStart).
Qed.

Lemma lex_nil : lex [] = (itemText, 0).
Proof. reflexivity. Qed.

(** Reading a prefix first *)
Lemma run_states_app (s pre1 pre2 : list rune) (st : state) (i : Z) :
  run_states s st i (pre1 ++ pre2) =
  run_states s st i pre1 ≫= λ st', run_states s st' (i + Z.of_nat (length pre1)) pre2.
Proof.
  revert st i. induction pre1 as [|r pre1 IH]; intros st i; simpl.
  - by rewrite Z.add_0_r.
  - destruct (step s st i r); [|done]. rewrite IH. simpl.
    by replace (i + 1 + Z.of_nat (length pre1))
      with (i + Z.pos (Pos.of_succ_nat (length pre1))) by lia.
Qed.

Lemma lex_loop_run_states (s pre rest : list rune) (st st' : state) (i : Z) :
  run_states s st i pre = Some st' →
  lex_loop s st i (pre ++ rest) = lex_loop s st' (i + Z.of_nat (length pre)) rest.
Proof.
  revert st i. induction pre as [|r pre IH]; intros st i; simpl.
  - intros [= ->]. by rewrite Z.add_0_r.
  - destruct (step s st i r); [|done]. intros H. rewrite (IH _ _ H).
    f_equal. lia.
Qed.

Lemma run_states_inv (pre2 pre1 rest : list rune) (st st' : state) :
  lex_inv st pre1 →
  run_states (pre1 ++ pre2 ++ rest) st (Z.of_nat (length pre1)) pre2 = Some st' →
  lex_inv st' (pre1 ++ pre2).
Proof.
  revert pre1 st. induction pre2 as [|r pre2 IH]; intros pre1 st Hinv; simpl.
  - intros [= ->]. by rewrite app_nil_r.
  - pose proof (step_spec pre1 (pre2 ++ rest) r st Hinv) as Hstep.
    destruct (step _ st _ r) as [st1|]; [|done]. intros Hrun.
    replace (pre1 ++ r :: pre2) with ((pre1 ++ [r]) ++ pre2)
      by (by rewrite <- app_assoc).
    apply (IH (pre1 ++ [r]) st1 Hstep).
    rewrite <- app_assoc. simpl. rewrite length_app. simpl.
    by replace (Z.of_nat (length pre1 + 1)) with (Z.of_nat (length pre1) + 1)
      by lia.
Qed.

Lemma state_after_inv (s : list rune) (k : nat) (st : state) :
  state_after s k = Some st → lex_inv st (take k s).
Proof.
  unfold state_after. intros H.
  apply (run_states_inv (take k s) [] (drop k s) stateStart st); [done|].
  simpl. by rewrite take_drop.
Qed.

(** ** The compiler: one token after the other *)

Lemma lex_split (s : list rune) :
  s ≠ [] →
  ∃ typ tok back,
    lex s = (typ, Z.of_nat (length tok)) ∧ s = tok ++ back ∧
    take (Z.to_nat (Z.of_nat (length tok))) s = tok ∧
    drop (Z.to_nat (Z.of_nat (length tok))) s = back ∧
    token_ok typ tok ∧ (length back < length s)%nat.
Proof.
  intros Hne. destruct (lex_spec s Hne) as (typ & tok & back & Hlex & -> & Hok).
  exists typ, tok, back. rewrite Nat2Z.id, take_app_length, drop_app_length.
  split_and!; try done. apply token_ok_nonempty in Hok.
  rewrite length_app. destruct tok; [done | simpl; lia].
Qed.

Lemma tokens_fuel (f1 f2 : nat) (s : list rune) :
  (length s ≤ f1)%nat → (length s ≤ f2)%nat → tokens f1 s = tokens f2 s.
Proof.
  revert f2 s. induction f1 as [|f1 IH]; intros f2 s H1 H2.
  - destruct s; [by destruct f2 | simpl in H1; lia].
  - destruct s as [|r s]; [by destruct f2|].
    destruct f2 as [|f2]; [simpl in H2; lia|].
    destruct (lex_split (r :: s)) as (typ & tok & back & Hlex & _ & _ & Hd & _ & Hlt);
      [done|].
    simpl tokens. rewrite Hlex. f_equal. rewrite Hd.
    simpl in *. apply IH; lia.
Qed.

Lemma tokens_cons (r : rune) (s : list rune) :
  ∃ typ tok back,
    tokenize (r :: s) = (typ, tok) :: tokenize back ∧
    lex (r :: s) = (typ, Z.of_nat (length tok)) ∧
    r :: s = tok ++ back ∧ token_ok typ tok ∧ (length back ≤ length s)%nat.
Proof.
  destruct (lex_split (r :: s)) as (typ & tok & back & Hlex & Hs & Ht & Hd & Hok & Hlt);
    [done|].
  exists typ, tok, back. split_and!; try done; [|simpl in Hlt; lia].
  unfold tokenize. simpl tokens. rewrite Hlex, Ht, Hd. f_equal.
  apply tokens_fuel; simpl in *; lia.
Qed.

(** Induction on the tokens of an input. *)
Lemma tokenize_ind (P : list rune → Prop) :
  P [] →
  (∀ typ tok back,
     token_ok typ tok → lex (tok ++ back) = (typ, Z.of_nat (length tok)) →
     tokenize (tok ++ back) = (typ, tok) :: tokenize back →
     P back → P (tok ++ back)) →
  ∀ s, P s.
Proof.
  intros Hnil Hstep s.
  induction s as [s IH] using (induction_ltof1 _ (@length rune)).
  destruct s as [|r s]; [done|].
  destruct (tokens_cons r s) as (typ & tok & back & Htok & Hlex & Hs & Hok & Hle).
  rewrite Hs. apply (Hstep typ tok back); [done | by rewrite <- Hs.. |].
  apply IH. unfold ltof. simpl. lia.
Qed.

Lemma tokenize_concat (s : list rune) : concat (tokenize s).*2 = s.
Proof.
  induction s as [|typ tok back _ _ Htok IH] using tokenize_ind; [done|].
  by rewrite Htok, fmap_cons, concat_cons, IH.
Qed.

Lemma tokenize_ok (s : list rune) :
  Forall (λ t, token_ok t.1 t.2) (tokenize s).
Proof.
  induction s as [|typ tok back Hok _ Htok IH] using tokenize_ind.
  - constructor.
  - rewrite Htok. by constructor.
Qed.

Lemma slice_to_len_app (tok back : list rune) :
  slice_to (tok ++ back) (Z.of_nat (length tok)) = Some tok.
Proof.
  unfold slice_to. rewrite length_app.
  replace ((0 <=? Z.of_nat (length tok)) &&
           (Z.of_nat (length tok) <=? Z.of_nat (length tok + length back)))
    with true by (symmetry; apply andb_true_iff; split; apply Z.leb_le; lia).
  by rewrite Nat2Z.id, take_app_length.
Qed.

Lemma slice_from_len_app (tok back : list rune) :
  slice_from (tok ++ back) (Z.of_nat (length tok)) = Some back.
Proof.
  unfold slice_from. rewrite length_app.
  replace ((0 <=? Z.of_nat (length tok)) &&
           (Z.of_nat (length tok) <=? Z.of_nat (length tok + length back)))
    with true by (symmetry; apply andb_true_iff; split; apply Z.leb_le; lia).
  by rewrite Nat2Z.id, drop_app_length.
Qed.

(** With an iteration for each rune and one more, the loop is [compile] on
    the tokens of its input. *)
Lemma parse_loop_compile (flds : gmap string (option field)) (s : list rune) :
  ∀ (fuel : nat) (p : pattern),
    (length s < fuel)%nat →
    parse_loop fuel flds s p = compile flds (tokenize s) p.
Proof.
  induction s as [|typ tok back Hok Hlex Htok IH] using tokenize_ind;
    intros fuel p Hfuel.
  - destruct fuel; [simpl in Hfuel; lia | done].
  - destruct fuel as [|fuel]; [lia|].
    pose proof (token_ok_nonempty _ _ Hok) as Hne.
    rewrite Htok. simpl parse_loop.
    replace (Z.of_nat (length (tok ++ back)) =? 0) with false
      by (symmetry; apply Z.eqb_neq; rewrite length_app; destruct tok; [done | simpl; lia]).
    rewrite Hlex, slice_to_len_app, slice_from_len_app.
    assert (Hback : (length back < fuel)%nat).
    { rewrite length_app in Hfuel. destruct tok; [done | simpl in Hfuel; lia]. }
    simpl compile. destruct typ.
    + by apply IH.
    + destruct (index_fields flds (string_of_runes tok)); [by apply IH | done].
    + destruct (Str.slice_from (string_of_runes tok) (Str.len "$header."));
        [by apply IH | done].
Qed.

Lemma parse_compile (format : string) (flds : gmap string (option field)) :
  parse format flds = compile flds (tokenize (runes_of_string format)) [].
Proof. unfold parse, parse_fuel. apply parse_loop_compile. lia. Qed.

Lemma parse_fuel_stable (fuel : nat) (format : string)
    (flds : gmap string (option field)) :
  (length (runes_of_string format) < fuel)%nat →
  parse_fuel fuel format flds = parse format flds.
Proof.
  intros H. rewrite parse_compile. unfold parse_fuel. by apply parse_loop_compile.
Qed.

(** The name a Header token leaves after [val[len("$header."):]] *)
Lemma header_name (ids : list rune) :
  Str.slice_from (string_of_runes (ascii_runes "$header." ++ ids))
    (Str.len "$header.") = Some (string_of_runes ids).
Proof.
  rewrite string_of_runes_app.
  change (string_of_runes (ascii_runes "$header.")) with "$header.".
  unfold Str.slice_from, Str.len. rewrite Nat2Z.id.
  change (Z.of_nat (String.length "$header.") <? 0) with false.
  cbv iota. apply StrFacts.drop_app.
Qed.

Lemma string_of_runes_ids_nonempty (ids : list rune) :
  ids_ok ids → string_of_runes ids ≠ "".
Proof.
  intros [Hne Hall] Heq.
  apply (f_equal String.length) in Heq.
  rewrite string_of_runes_ids_length in Heq by done. by destruct ids.
Qed.

Lemma compile_returns (flds : gmap string (option field))
    (toks : list (itemType * list rune)) :
  Forall (λ t, token_ok t.1 t.2) toks →
  ∀ p, ∃ res, compile flds toks p = Returns res.
Proof.
  induction 1 as [|[typ tok] toks Hok _ IH]; intros p; cbn [compile].
  - by eexists.
  - destruct typ; cbn [token_ok fst snd] in Hok.
    + apply IH.
    + destruct (index_fields flds (string_of_runes tok)); [apply IH | by eexists].
    + destruct Hok as (ids & -> & _). rewrite header_name. apply IH.
Qed.

(** The first Field token without a function stops the compiler. *)
Lemma compile_invalid (flds : gmap string (option field))
    (toks : list (itemType * list rune)) (tok : list rune) :
  Forall (λ t, token_ok t.1 t.2) toks →
  (itemField, tok) ∈ toks →
  index_fields flds (string_of_runes tok) = None →
  ∃ pre bad post,
    toks = pre ++ (itemField, bad) :: post ∧
    index_fields flds (string_of_runes bad) = None ∧
    (∀ t, (itemField, t) ∈ pre → index_fields flds (string_of_runes t) ≠ None) ∧
    ∀ p, compile flds toks p = Returns ([], Some (invalid_field (string_of_runes bad))).
Proof.
  induction 1 as [|[typ t0] toks Hok _ IH]; intros Hin Hnone.
  - by apply elem_of_nil in Hin.
  - assert (Hrec : (itemField, tok) ∈ toks →
      (∀ p, ∃ p', compile flds ((typ, t0) :: toks) p = compile flds toks p') →
      (typ = itemField → index_fields flds (string_of_runes t0) ≠ None) →
      ∃ pre bad post,
        (typ, t0) :: toks = pre ++ (itemField, bad) :: post ∧
        index_fields flds (string_of_runes bad) = None ∧
        (∀ t, (itemField, t) ∈ pre → index_fields flds (string_of_runes t) ≠ None) ∧
        ∀ p, compile flds ((typ, t0) :: toks) p
             = Returns ([], Some (invalid_field (string_of_runes bad)))).
    { intros Hin' Hstep Hhead.
      destruct (IH Hin' Hnone) as (pre & bad & post & -> & Hbad & Hpre & Hc).
      exists ((typ, t0) :: pre), bad, post. split_and!; [done..| |].
      - intros t [[= <- ->]|Ht]%elem_of_cons; [by apply Hhead | by apply Hpre].
      - intros p. destruct (Hstep p) as [p' ->]. apply Hc. }
    destruct typ; cbn [token_ok fst snd] in Hok.
    + apply Hrec; [|intros p; by eexists|done].
      by apply elem_of_cons in Hin as [[=]|].
    + destruct (index_fields flds (string_of_runes t0)) as [f|] eqn:Ef.
      * apply Hrec; [|intros p; cbn [compile]; rewrite Ef; by eexists|done].
        apply elem_of_cons in Hin as [[= ->]|]; [congruence | done].
      * exists [], t0, toks. split_and!; [done..| |].
        -- intros t Ht. by apply elem_of_nil in Ht.
        -- intros p. cbn [compile]. by rewrite Ef.
    + destruct Hok as (ids & -> & _).
      apply Hrec; [|intros p; cbn [compile]; rewrite header_name; by eexists|done].
      by apply elem_of_cons in Hin as [[=]|].
Qed.

(** The text of a Field token needs no escape in the error message. *)
Lemma ids_plain (ids : list rune) :
  Forall (λ r, isIDChar r = true) ids →
  all_bytes plain_byte (string_of_runes ids) = true.
Proof.
  induction 1 as [|r ids Hr _ IH]; [done|]. simpl.
  pose proof (isIDChar_ascii r Hr) as [Hrange _].
  rewrite encode_rune_ascii by done. simpl. rewrite IH, andb_true_r.
  unfold plain_byte. rewrite chr_byte_of by lia. by rewrite Hr.
Qed.

Lemma field_token_plain (tok : list rune) :
  token_ok itemField tok → all_bytes plain_byte (string_of_runes tok) = true.
Proof.
  intros [(ids & -> & _ & Hall) | ->]; [|by vm_compute].
  change (chr "$" :: ids) with ([chr "$"] ++ ids).
  rewrite string_of_runes_app.
  change (string_of_runes [chr "$"]) with "$". simpl. by apply ids_plain.
Qed.

(** ** The numeric formatter: digits, padding, sign *)

Lemma chr_digit (d : Z) : 0 <= d < 10 → chr (digit d) = 48 + d.
Proof.
  intros Hd. unfold digit. change (chr "0") with 48. apply chr_byte_of. lia.
Qed.

Lemma digits_go_acc (fuel : nat) (m : Z) (acc : string) :
  digits_go fuel m acc = digits_go fuel m "" +:+ acc.
Proof.
  revert m acc. induction fuel as [|fuel IH]; intros m acc; simpl; [done|].
  destruct (m / 10 =? 0); [done|].
  rewrite (IH _ (String _ acc)), (IH _ (String _ "")).
  by rewrite StrFacts.app_assoc.
Qed.

Lemma all_digits_app (s1 s2 : string) :
  all_digits s1 → all_digits s2 → all_digits (s1 +:+ s2).
Proof. induction s1 as [|c s1 IH]; simpl; [done | intros [??] ?; auto]. Qed.

Lemma digits_value_app (s1 s2 : string) (acc : Z) :
  digits_value (s1 +:+ s2) acc = digits_value s2 (digits_value s1 acc).
Proof. revert acc. induction s1 as [|c s1 IH]; intros acc; simpl; [done | apply IH]. Qed.

Lemma all_digits_zeros (n : nat) : all_digits (zeros n).
Proof. induction n; simpl; [done|]. split; [by vm_compute | done]. Qed.

Lemma digits_value_zeros (n : nat) : digits_value (zeros n) 0 = 0.
Proof. induction n; simpl; [done|]. by change (10 * 0 + (chr "0" - 48)) with 0. Qed.

Lemma length_zeros (n : nat) : String.length (zeros n) = n.
Proof. induction n; simpl; congruence. Qed.

(** With fuel for every digit, the loop writes the digits of [m]: as many
    as [m] has, and no leading zero but for [0] itself. *)
Lemma digits_go_spec (fuel : nat) (m : Z) :
  0 <= m < 10 ^ (Z.of_nat fuel + 1) →
  ∃ nd : Z,
    all_digits (digits_go fuel m "") ∧ value (digits_go fuel m "") = m ∧
    Str.len (digits_go fuel m "") = nd ∧
    1 <= nd ∧ m < 10 ^ nd ∧ (1 < nd → 10 ^ (nd - 1) <= m).
Proof.
  revert m. induction fuel as [|fuel IH]; intros m Hm.
  - change (10 ^ (Z.of_nat 0 + 1)) with 10 in Hm. exists 1. simpl.
    rewrite Z.mod_small by lia. unfold value. simpl.
    rewrite chr_digit by lia. change (10 ^ 1) with 10. split_and!; try lia; done.
  - simpl digits_go. destruct (m / 10 =? 0) eqn:E.
    + apply Z.eqb_eq in E. assert (m < 10) by (Z.to_euclidean_division_equations; lia).
      exists 1. rewrite Z.mod_small by lia. unfold value. simpl.
      rewrite chr_digit by lia. change (10 ^ 1) with 10. split_and!; try lia; done.
    + apply Z.eqb_neq in E.
      replace (Z.of_nat (S fuel) + 1) with (Z.succ (Z.of_nat fuel + 1)) in Hm by lia.
      rewrite Z.pow_succ_r in Hm by lia.
      destruct (IH (m / 10)) as (nd & Hall & Hval & Hlen & Hnd & Hlt & Hge).
      { Z.to_euclidean_division_equations. lia. }
      exists (nd + 1). rewrite digits_go_acc.
      assert (Hd : 0 <= m mod 10 < 10) by (apply Z.mod_pos_bound; lia).
      split_and!.
      * apply all_digits_app; [done|]. simpl. rewrite chr_digit by done. lia.
      * unfold value in *. rewrite digits_value_app, Hval. simpl.
        rewrite chr_digit by done. Z.to_euclidean_division_equations. lia.
      * unfold Str.len in *. rewrite StrFacts.length_app. simpl. lia.
      * lia.
      * replace (nd + 1) with (Z.succ nd) by lia. rewrite Z.pow_succ_r by lia.
        Z.to_euclidean_division_equations. lia.
      * intros _. replace (nd + 1 - 1) with nd by lia.
        destruct (Z.eq_dec nd 1) as [->|Hne].
        -- change (10 ^ 1) with 10. Z.to_euclidean_division_equations. lia.
        -- specialize (Hge ltac:(lia)).
           replace nd with (Z.succ (nd - 1)) at 1 by lia.
           rewrite Z.pow_succ_r by lia.
           Z.to_euclidean_division_equations. lia.
Qed.

Lemma digits_spec (m : Z) :
  0 <= m →
  ∃ nd : Z,
    all_digits (digits m) ∧ value (digits m) = m ∧ Str.len (digits m) = nd ∧
    1 <= nd ∧ m < 10 ^ nd ∧ (1 < nd → 10 ^ (nd - 1) <= m).
Proof.
  intros Hm. apply digits_go_spec. split; [done|].
  rewrite Z2Nat.id by apply Z.log2_nonneg.
  destruct (Z.eq_dec m 0) as [->|Hne]; [done|].
  pose proof (Z.log2_spec m ltac:(lia)) as [_ Hlt].
  pose proof (Z.log2_nonneg m) as Hlog.
  assert (2 ^ Z.succ (Z.log2 m) <= 10 ^ (Z.log2 m + 1)); [|lia].
  replace (Z.succ (Z.log2 m)) with (Z.log2 m + 1) by lia.
  apply Z.pow_le_mono_l. lia.
Qed.

Lemma WriteRune_ascii (b : Buffer) (c : ascii) :
  chr c < 128 → WriteRune b (chr c) = b +:+ String c "".
Proof.
  intros Hc. unfold WriteRune.
  rewrite encode_rune_ascii by (pose proof (chr_range c); lia).
  by rewrite byte_of_chr.
Qed.

(** [atoi] appends the sign, the padding and the digits. *)
Lemma atoi_eq (b : Buffer) (v pad : Z) :
  atoi b v pad
  = b +:+ sign_of v +:+ zeros (Z.to_nat (pad - Str.len (digits (Z.abs v))))
      +:+ digits (Z.abs v).
Proof.
  unfold atoi, sign_of, WriteString. destruct (v <? 0).
  - rewrite WriteRune_ascii by (by vm_compute). by rewrite !StrFacts.app_assoc.
  - by rewrite !StrFacts.app_assoc.
Qed.

Lemma atoi_app (b : Buffer) (v pad : Z) : atoi b v pad = b +:+ atoi "" v pad.
Proof. by rewrite (atoi_eq b), (atoi_eq ""). Qed.

Lemma atoi_spec (b : Buffer) (v pad : Z) :
  ∃ (body : string) (nd : Z),
    atoi b v pad = b +:+ sign_of v +:+ body ∧
    all_digits body ∧ value body = Z.abs v ∧
    1 <= nd ∧ Z.abs v < 10 ^ nd ∧ (1 < nd → 10 ^ (nd - 1) <= Z.abs v) ∧
    Str.len body = Z.max pad nd.
Proof.
  destruct (digits_spec (Z.abs v)) as (nd & Hall & Hval & Hlen & Hnd & Hlt & Hge);
    [lia|].
  exists (zeros (Z.to_nat (pad - nd)) +:+ digits (Z.abs v)), nd.
  split_and!; try done.
  - by rewrite atoi_eq, Hlen.
  - apply all_digits_app; [apply all_digits_zeros | done].
  - unfold value in *. by rewrite digits_value_app, digits_value_zeros.
  - unfold Str.len in *. rewrite StrFacts.length_app, length_zeros. lia.
Qed.

(** ** The claims about the lexer and the compiler *)

(** C3. The loop of [lex] is in the Dot state only when it has read exactly
    [$header.]. From there an identifier character leads to the Header
    state; any other character makes it return a Field token one rune
    short of the nine runes read, that is the eight runes [$header.]; and
    at the end of the input, which is then [$header.], it returns a Field
    token of length [len(s) - 1], the seven runes [$header]. *)
Theorem lex_dot_state (s : list rune) (k : nat) :
  state_after s k = Some stateDot →
  take k s = ascii_runes "$header." ∧
  match s !! k with
  | Some c =>
      k = 8%nat ∧
      if isIDChar c then state_after s (S k) = Some stateHeader
      else lex s = (itemField, Z.of_nat (S k) - 1)
  | None =>
      s = ascii_runes "$header." ∧
      lex s = (itemField, Z.of_nat (length s) - 1) ∧
      slice_to s (Z.of_nat (length s) - 1) = Some (ascii_runes "$header")
  end.
Proof.
  intros Hst. pose proof (state_after_inv s k stateDot Hst) as Hpre.
  cbv [lex_inv] in Hpre. split; [done|].
  assert (Hlex : lex s = lex_loop s stateDot (Z.of_nat (length (take k s))) (drop k s)).
  { unfold lex. rewrite <- (take_drop k s) at 2.
    by rewrite (lex_loop_run_states s (take k s) (drop k s) stateStart stateDot 0 Hst). }
  destruct (s !! k) as [c|] eqn:Hk.
  - pose proof (lookup_lt_Some _ _ _ Hk) as Hlt.
    assert (Hk8 : k = 8%nat).
    { apply (f_equal length) in Hpre. rewrite length_take in Hpre.
      simpl in Hpre. lia. }
    split; [done|].
    rewrite (drop_S _ _ _ Hk) in Hlex. simpl in Hlex.
    destruct (isIDChar c) eqn:Ec.
    + unfold state_after. rewrite (take_S_r _ _ _ Hk), run_states_app.
      unfold state_after in Hst. rewrite Hst. simpl. by rewrite Ec.
    + rewrite Hlex. rewrite length_take. f_equal. lia.
  - apply lookup_ge_None in Hk.
    rewrite take_ge in Hpre by done. rewrite take_ge, drop_ge in Hlex by done.
    split; [done|]. split; [by rewrite Hlex|]. by subst s.
Qed.

Lemma lex_dot_state_witness :
  state_after (ascii_runes "$header.") 8 = Some stateDot ∧
  lex (ascii_runes "$header.") = (itemField, 7) ∧
  state_after (ascii_runes "$header. x") 8 = Some stateDot ∧
  lex (ascii_runes "$header. x") = (itemField, 8).
Proof.
  split; [reflexivity|]. split.
  - exact (proj1 (proj2 (proj2 (lex_dot_state (ascii_runes "$header.") 8 eq_refl)))).
  - split; [reflexivity|].
    exact (proj2 (proj2 (lex_dot_state (ascii_runes "$header. x") 8 eq_refl))).
Defined.

(** C4. In the tokens of an input, a [$] that no identifier character
    follows (another character follows it, or it ends the input) lies in a
    Text token: wherever the token that covers its index is, it is neither
    a Field nor a Header token. *)
Theorem lone_dollar_is_text (s : list rune)
    (pre post : list (itemType * list rune)) (typ : itemType)
    (tok : list rune) (k : nat) :
  tokenize s = pre ++ (typ, tok) :: post →
  (length (concat pre.*2) ≤ k < length (concat pre.*2) + length tok)%nat →
  lone_dollar s k →
  typ = itemText.
Proof.
  revert pre k.
  induction s as [|typ0 tok0 back Hok _ Htok IH] using tokenize_ind;
    intros pre k Heq Hk [Hd Hnext].
  - by destruct pre.
  - rewrite Htok in Heq. unfold rune in *.
    destruct pre as [|[typ1 tok1] pre].
    + injection Heq as -> -> _. simpl in Hk.
      assert (Hin : ∀ j, (j < length tok)%nat → (tok ++ back) !! j = tok !! j)
        by (intros j Hj; by apply lookup_app_l).
      destruct typ; [done| |]; exfalso; cbn [token_ok] in Hok.
      * destruct Hok as [(ids & -> & Hne & Hall) | ->].
        -- destruct k as [|k].
           ++ destruct ids as [|c ids]; [done|]. simpl in Hnext.
              apply Forall_cons in Hall as [Hc _]. congruence.
           ++ rewrite Hin in Hd by lia. simpl in Hd.
              apply list_elem_of_lookup_2 in Hd.
              rewrite Forall_forall in Hall. apply Hall in Hd.
              by apply isIDChar_ascii in Hd as (_ & ? & _).
        -- do 8 (destruct k as [|k]; [by vm_compute in Hd, Hnext|]).
           simpl in Hk. lia.
      * destruct Hok as (ids & -> & Hne & Hall).
        do 8 (destruct k as [|k]; [by vm_compute in Hd, Hnext|]).
        rewrite Hin in Hd by lia.
        change (ascii_runes "$header." ++ ids) with
          (take 8 (ascii_runes "$header.") ++ ids) in Hd.
        rewrite lookup_app_r in Hd by (simpl; lia).
        apply list_elem_of_lookup_2 in Hd.
        rewrite Forall_forall in Hall. apply Hall in Hd.
        by apply isIDChar_ascii in Hd as (_ & ? & _).
    + injection Heq as <- <- Heq.
      rewrite fmap_cons, concat_cons, length_app in Hk.
      change ((typ0, tok0).2) with tok0 in Hk.
      apply (IH pre (k - length tok0)%nat Heq); [lia|].
      split.
      * rewrite lookup_app_r in Hd by lia. done.
      * replace (S (k - length tok0)) with (S k - length tok0)%nat by lia.
        rewrite lookup_app_r in Hnext by lia. done.
Qed.

Lemma lone_dollar_is_text_witness :
  tokenize (ascii_runes "a$ b$")
    = [(itemText, ascii_runes "a"); (itemText, ascii_runes "$ b");
       (itemText, ascii_runes "$")] ∧
  lone_dollar (ascii_runes "a$ b$") 1 ∧ itemText = itemText.
Proof.
  split; [reflexivity|].
  assert (H1 : lone_dollar (ascii_runes "a$ b$") 1) by (split; reflexivity).
  split; [exact H1|].
  exact (lone_dollar_is_text (ascii_runes "a$ b$")
    [(itemText, ascii_runes "a")] [(itemText, ascii_runes "$")] itemText
    (ascii_runes "$ b") 1 eq_refl ltac:(simpl; lia) H1).
Defined.

(** C9. On a non-empty rune slice [lex] returns a length between 1 and
    the length of the slice. Hence the loop of [parse] ends: the tokens it
    takes one after the other make up the whole input, an iteration for
    each rune and one more always suffice for it to return (a pattern, or
    the error of a field that is not in the table; it neither runs on nor
    slices out of range), more iterations change nothing, and what it
    returns is the compilation of those tokens. *)
Theorem lex_advances_parse_terminates :
  (∀ (r : rune) (s : list rune),
     1 <= (lex (r :: s)).2 <= Z.of_nat (length (r :: s))) ∧
  (∀ (format : string) (flds : gmap string (option field)),
     let s := runes_of_string format in
     concat (tokenize s).*2 = s ∧
     (∃ res, parse format flds = Returns res) ∧
     parse format flds = compile flds (tokenize s) [] ∧
     ∀ fuel, (length s < fuel)%nat →
       parse_fuel fuel format flds = parse format flds).
Proof.
  split.
  - intros r s.
    destruct (lex_spec (r :: s)) as (typ & tok & back & -> & Hs & Hok); [done|].
    apply token_ok_nonempty in Hok. apply (f_equal length) in Hs.
    rewrite length_app in Hs. simpl in *. destruct tok; [done | simpl in *; lia].
  - intros format flds s. split_and!.
    + apply tokenize_concat.
    + rewrite parse_compile. apply compile_returns, tokenize_ok.
    + apply parse_compile.
    + intros fuel Hfuel. by apply parse_fuel_stable.
Qed.

(** C10. A token that [lex] gives as a Header token is [$header.] followed
    by at least one identifier character and lies within the input; so
    [val[len("$header."):]] in [parse] is in bounds and the header name
    it leaves is not empty. *)
Theorem lex_header_token (s : list rune) (n : Z) :
  lex s = (itemHeader, n) →
  ∃ ids : list rune,
    ids ≠ [] ∧ Forall (λ r, isIDChar r = true) ids ∧
    slice_to s n = Some (ascii_runes "$header." ++ ids) ∧
    string_of_runes (ascii_runes "$header." ++ ids)
      = "$header." +:+ string_of_runes ids ∧
    Str.slice_from (string_of_runes (ascii_runes "$header." ++ ids))
      (Str.len "$header.") = Some (string_of_runes ids) ∧
    string_of_runes ids ≠ "".
Proof.
  intros Hlex. destruct s as [|r s]; [done|].
  destruct (lex_spec (r :: s)) as (typ & tok & back & Hl & Hs & Hok); [done|].
  rewrite Hl in Hlex. injection Hlex as -> <-. cbn [token_ok] in Hok.
  destruct Hok as (ids & -> & Hids). exists ids.
  destruct Hids as [Hne Hall]. split_and!; [done | done | | | |].
  - rewrite Hs. apply slice_to_len_app.
  - by rewrite string_of_runes_app.
  - apply header_name.
  - by apply string_of_runes_ids_nonempty.
Qed.

Lemma lex_header_token_witness :
  ∃ ids : list rune,
    ids ≠ [] ∧ Forall (λ r, isIDChar r = true) ids ∧
    slice_to (ascii_runes "$header.User-Agent x") 18
      = Some (ascii_runes "$header." ++ ids) ∧
    string_of_runes (ascii_runes "$header." ++ ids)
      = "$header." +:+ string_of_runes ids ∧
    Str.slice_from (string_of_runes (ascii_runes "$header." ++ ids))
      (Str.len "$header.") = Some (string_of_runes ids) ∧
    string_of_runes ids ≠ "".
Proof.
  exact (lex_header_token (ascii_runes "$header.User-Agent x") 18 eq_refl).
Defined.

(** C1. If [lex] gives the compiler a Field token (so not a Header token)
    whose text is no key of the field table, [parse] returns the invalid
    field error and a nil pattern, whatever came before: the field named
    in the error is the first Field token without a function in the
    table, and the renderers of the tokens before it are not returned. *)
Theorem parse_invalid_field (format : string)
    (flds : gmap string (option field)) (tok : list rune) :
  (itemField, tok) ∈ tokenize (runes_of_string format) →
  flds !! string_of_runes tok = None →
  ∃ pre bad post,
    tokenize (runes_of_string format) = pre ++ (itemField, bad) :: post ∧
    index_fields flds (string_of_runes bad) = None ∧
    (∀ t, (itemField, t) ∈ pre → index_fields flds (string_of_runes t) ≠ None) ∧
    parse format flds
      = Returns ([], Some (invalid_field (string_of_runes bad))).
Proof.
  intros Hin Habs.
  destruct (compile_invalid flds _ tok (tokenize_ok _) Hin)
    as (pre & bad & post & Heq & Hbad & Hpre & Hc).
  { unfold index_fields. by rewrite Habs. }
  exists pre, bad, post. split_and!; try done.
  rewrite parse_compile. apply Hc.
Qed.

Lemma parse_invalid_field_witness :
  ∃ pre bad post,
    tokenize (runes_of_string "$a $x $y")
      = pre ++ (itemField, bad) :: post ∧
    index_fields test_fields (string_of_runes bad) = None ∧
    (∀ t, (itemField, t) ∈ pre →
       index_fields test_fields (string_of_runes t) ≠ None) ∧
    parse "$a $x $y" test_fields
      = Returns ([], Some (invalid_field (string_of_runes bad))).
Proof.
  apply (parse_invalid_field "$a $x $y" test_fields (ascii_runes "$y")).
  - change (tokenize (runes_of_string "$a $x $y")) with
      [(itemField, ascii_runes "$a"); (itemText, ascii_runes " ");
       (itemField, ascii_runes "$x"); (itemText, ascii_runes " ");
       (itemField, ascii_runes "$y")].
    do 4 apply list_elem_of_further. apply list_elem_of_here.
  - reflexivity.
Defined.

Example parse_invalid_field_message :
  parse "$a $x $y" test_fields
    = Returns ([], Some ("invalid field " +:+ dquote +:+ "$x" +:+ dquote)).
Proof. vm_compute. reflexivity. Qed.

(** ** The claims about the formatter, the field table and the executor *)

(** C6. For every value and every width, [atoi] writes a [-] for a
    negative value and then a string of decimal digits that denotes the
    magnitude of the value and has as many digits as the greater of the
    width and the number of digits of the magnitude: zeros fill it on the
    left up to the width, the sign is not counted, and nothing is cut. The
    least 64-bit integer is written in full, and
    [atoi(0,0)], [atoi(-1,0)], [atoi(0,5)], [atoi(-1,5)] are
    [0], [-1], [00000], [-00001]. *)
Theorem atoi_decimal :
  (∀ (b : Buffer) (v pad : Z),
     ∃ (body : string) (nd : Z),
       atoi b v pad = b +:+ sign_of v +:+ body ∧
       all_digits body ∧ value body = Z.abs v ∧
       1 <= nd ∧ Z.abs v < 10 ^ nd ∧ (1 < nd → 10 ^ (nd - 1) <= Z.abs v) ∧
       Str.len body = Z.max pad nd) ∧
  atoi "" 0 0 = "0" ∧ atoi "" (-1) 0 = "-1" ∧
  atoi "" 0 5 = "00000" ∧ atoi "" (-1) 5 = "-00001" ∧
  atoi "" MinInt64 0 = "-9223372036854775808" ∧
  atoi "" MinInt64 25 = "-0000009223372036854775808".
Proof.
  split; [apply atoi_spec|]. split_and!; vm_compute; reflexivity.
Qed.

Lemma atoi_str_eq (b : Buffer) (v pad : Z) : atoi b v pad = b +:+ atoi_str v pad.
Proof. apply atoi_app. Qed.

Lemma pow10_digits_le (nd pad v : Z) :
  0 <= pad → v < 10 ^ pad → (1 < nd → 10 ^ (nd - 1) <= v) → 1 <= pad → nd <= pad.
Proof.
  intros Hpad Hlt Hge Hp1. destruct (Z_le_gt_dec nd pad) as [|Hgt]; [done|].
  specialize (Hge ltac:(lia)).
  assert (10 ^ pad <= 10 ^ (nd - 1)) by (apply Z.pow_le_mono_r; lia). lia.
Qed.

Lemma response_time_spec (unit_ pad : Z) (b : Buffer) (t1 t2 : Time)
    (w : http_Response) (r : http_Request) :
  1 <= pad → 0 < unit_ → Second_unit = unit_ * 10 ^ pad →
  let d := Sub t2 t1 in
  let secs := Z.quot d Second_unit in
  let frac := Z.quot (Z.rem d Second_unit) unit_ in
  ∃ body : string,
    response_time unit_ pad b t1 t2 w r
      = b +:+ atoi_str secs 0 +:+ "." +:+ sign_of frac +:+ body ∧
    all_digits body ∧ Str.len body = pad ∧ value body = Z.abs frac.
Proof.
  intros Hpad Hunit Hsec d secs frac.
  destruct (atoi_spec "" frac pad)
    as (body & nd & Heq & Hall & Hval & Hnd & Hlt & Hge & Hlen).
  exists body. split_and!; [|done| |done].
  - unfold response_time. fold d. fold secs. fold frac.
    rewrite (atoi_str_eq _ frac), (atoi_str_eq b secs).
    rewrite WriteRune_ascii by (by vm_compute).
    unfold atoi_str at 2. rewrite Heq. by rewrite !StrFacts.app_assoc.
  - rewrite Hlen. apply Z.max_l.
    apply (pow10_digits_le nd pad (Z.abs frac)); [lia| |done|done].
    subst frac. set (P := 10 ^ pad) in *.
    assert (0 < P) by (subst P; apply Z.pow_pos_nonneg; lia).
    pose proof (Z.rem_bound_abs d Second_unit ltac:(unfold Second_unit; lia)) as Hb.
    rewrite Hsec in *.
    set (x := Z.rem d (unit_ * P)) in *.
    rewrite <- Z.quot_abs by lia. rewrite (Z.abs_eq unit_) by lia.
    rewrite Z.quot_div_nonneg by lia.
    apply Z.div_lt_upper_bound; [lia|].
    rewrite Z.abs_mul, (Z.abs_eq unit_), (Z.abs_eq P) in Hb by lia. lia.
Qed.

(** C5. The fields [$response_time_ms], [$response_time_us] and
    [$response_time_ns] write, for the elapsed time [d = t2.Sub(t1)] in
    nanoseconds, the whole seconds [d / 1e9] in decimal, a dot, and the
    rest [d % 1e9] in milliseconds, microseconds or nanoseconds on exactly
    3, 6 or 9 digits, zeros on the left (after its sign when [d] is
    negative); for [d = 123456789] they write [0.123], [0.123456] and
    [0.123456789]. *)
Theorem response_time_format :
  renders_elapsed "$response_time_ms" Millisecond 3 ∧
  renders_elapsed "$response_time_us" Microsecond 6 ∧
  renders_elapsed "$response_time_ns" Nanosecond_unit 9 ∧
  Sub test_t2 test_t1 = 123456789 ∧
  (∀ (t1 t2 : Time) (w : http_Response) (r : http_Request),
     Sub t2 t1 = 123456789 →
     response_time Millisecond 3 "" t1 t2 w r = "0.123" ∧
     response_time Microsecond 6 "" t1 t2 w r = "0.123456" ∧
     response_time Nanosecond_unit 9 "" t1 t2 w r = "0.123456789").
Proof.
  split_and!.
  - exists (response_time Millisecond 3). split; [by vm_compute|].
    intros. by apply response_time_spec.
  - exists (response_time Microsecond 6). split; [by vm_compute|].
    intros. by apply response_time_spec.
  - exists (response_time Nanosecond_unit 9). split; [by vm_compute|].
    intros. by apply response_time_spec.
  - reflexivity.
  - intros t1 t2 w r Hd. unfold response_time. rewrite Hd.
    split_and!; vm_compute; reflexivity.
Qed.

Lemma SplitHostPort_error (addr host port err : string) :
  SplitHostPort addr = (host, port, Some err) → host = "" ∧ port = "".
Proof.
  unfold SplitHostPort. intros H. repeat case_match; by simplify_eq.
Qed.

(** C8. [$remote_host] and [$remote_port] are in the field table. When
    [net.SplitHostPort] splits the remote address of the request they
    write the host and the port; when it reports an error (an address
    without a port, for one) each writes the empty string, so the buffer
    stays as it was, and nothing fails. *)
Theorem remote_host_port_render (b : Buffer) (t1 t2 : Time)
    (w : http_Response) (r : http_Request) :
  fields !! "$remote_host" = Some (Some remote_host) ∧
  fields !! "$remote_port" = Some (Some remote_port) ∧
  match SplitHostPort (RemoteAddr r) with
  | (host, port, None) =>
      remote_host b t1 t2 w r = b +:+ host ∧
      remote_port b t1 t2 w r = b +:+ port
  | (_, _, Some _) =>
      remote_host b t1 t2 w r = b +:+ "" ∧ remote_host b t1 t2 w r = b ∧
      remote_port b t1 t2 w r = b +:+ "" ∧ remote_port b t1 t2 w r = b
  end ∧
  SplitHostPort "2.2.2.2:666" = ("2.2.2.2", "666", None) ∧
  SplitHostPort "[::1]:80" = ("::1", "80", None) ∧
  SplitHostPort "2.2.2.2" = ("", "", Some missingPort) ∧
  SplitHostPort "" = ("", "", Some missingPort) ∧
  SplitHostPort "a:b:80" = ("", "", Some tooManyColons).
Proof.
  split; [by vm_compute|]. split; [by vm_compute|].
  split; [|split_and!; reflexivity].
  unfold remote_host, remote_port, WriteString.
  destruct (SplitHostPort (RemoteAddr r)) as [[host port] [err|]] eqn:E; [|done].
  apply SplitHostPort_error in E as [-> ->]. by rewrite StrFacts.app_nil_r.
Qed.

(** Every renderer of the field table appends to the buffer and does not
    read it. *)
Ltac solve_appends :=
  intros b t1 t2 w r;
  cbv [remote_host remote_port response_time time_rfc3339_frac date_time];
  repeat match goal with
         | |- context [SplitHostPort ?a] =>
             destruct (SplitHostPort a) as [[? ?] ?]
         end;
  unfold WriteString, WriteRune;
  rewrite ?atoi_str_eq, ?StrFacts.app_assoc, ?StrFacts.app_nil_l;
  reflexivity.

Lemma fields_list_appends :
  Forall (λ kv : string * option field, ∀ f, kv.2 = Some f → appends f)
    fields_list.
Proof.
  unfold fields_list.
  repeat (apply Forall_cons; split; [intros f [= <-]; solve_appends|]).
  by apply Forall_nil.
Qed.

Lemma fields_appends (k : string) (f : field) :
  fields !! k = Some (Some f) → appends f.
Proof.
  unfold fields. intros H. apply elem_of_list_to_map_2 in H.
  pose proof fields_list_appends as Hall. rewrite Forall_forall in Hall.
  by apply (Hall _ H).
Qed.

Lemma text_appends (s : string) : appends (text s).
Proof. intros b t1 t2 w r. by unfold text, WriteString. Qed.

Lemma header_appends (name : string) : appends (header name).
Proof. intros b t1 t2 w r. by unfold header, WriteString. Qed.

Lemma index_fields_Some (flds : gmap string (option field)) (val : string)
    (f : field) :
  index_fields flds val = Some f → flds !! val = Some (Some f).
Proof.
  unfold index_fields. by destruct (flds !! val) as [[f'|]|]; simpl; intros [= ->].
Qed.

Lemma compile_appends (flds : gmap string (option field))
    (toks : list (itemType * list rune)) :
  (∀ k f, flds !! k = Some (Some f) → appends f) →
  ∀ p p', Forall appends p → compile flds toks p = Returns (p', None) →
          Forall appends p'.
Proof.
  intros Hflds. induction toks as [|[typ tok] toks IH]; intros p p' Hp;
    cbn [compile].
  - by intros [= <-].
  - destruct typ.
    + apply IH. apply Forall_app; split; [done|].
      constructor; [apply text_appends | constructor].
    + destruct (index_fields flds (string_of_runes tok)) as [f|] eqn:Ef; [|done].
      apply IH. apply Forall_app; split; [done|].
      constructor; [|constructor]. by apply (Hflds _ _ (index_fields_Some _ _ _ Ef)).
    + destruct (Str.slice_from _ _) as [name|]; [|done].
      apply IH. apply Forall_app; split; [done|].
      constructor; [apply header_appends | constructor].
Qed.


(** C2 as it is stated fails on a buffer that holds bytes before the call:
    with the empty pattern, the one [parse] compiles from the empty format
    string, the renderers add nothing to the buffer [x], and [write] still
    appends the line terminator. *)
Lemma write_prefilled_buffer :
  parse "" fields = Returns ([], None) ∧
  render [] "x" test_t1 test_t2 test_resp test_req = "x" ∧
  write [] "x" test_t1 test_t2 test_resp test_req = String "x" (String "010" "") ∧
  write [] "x" test_t1 test_t2 test_resp test_req ≠ "x".
Proof. split_and!; [reflexivity..|discriminate]. Qed.

(** C2, amended. After the renderers have run in order, [write] appends
    nothing when the buffer is empty as a whole, and exactly one [\n] at
    the end otherwise. For a buffer that was empty at the call this is: no
    line terminator when the renderers wrote no byte, one when they wrote
    some; the pattern of the empty format string leaves an empty buffer
    empty. *)
Theorem write_line_terminator (p : pattern) (b : Buffer) (t1 t2 : Time)
    (w : http_Response) (r : http_Request) :
  let b' := render p b t1 t2 w r in
  (Len b' = 0 → write p b t1 t2 w r = b') ∧
  (Len b' ≠ 0 → write p b t1 t2 w r = b' +:+ String "010" "") ∧
  (Len b = 0 →
     (b' = b → write p b t1 t2 w r = b) ∧
     (b' ≠ b → write p b t1 t2 w r = b' +:+ String "010" "")) ∧
  parse "" fields = Returns ([], None) ∧
  write [] "" t1 t2 w r = "".
Proof.
  intros b'. unfold write. fold b'.
  assert (Hnl : WriteRune b' newline = b' +:+ String "010" "") by done.
  split_and!; [| | |reflexivity..].
  - intros H. by rewrite H.
  - intros H. apply Z.eqb_neq in H. by rewrite H.
  - intros Hb. destruct b; [|done]. split.
    + intros ->. done.
    + intros Hne. destruct b'; done.
Qed.

(** ** More about the lexer *)

Lemma step_emit_index (s : list rune) (st : state) (i : Z) (r : rune)
    (typ : itemType) (n : Z) :
  step s st i r = Emit typ n → n = i.
Proof.
  destruct st; cbv [step]; repeat case_match; intros [=]; by subst.
Qed.

Lemma dollars_in_front_snoc (pre : list rune) (r : rune) :
  dollars_in_front pre → r ≠ chr "$" → dollars_in_front (pre ++ [r]).
Proof.
  intros Hpre Hr j Hj.
  destruct (decide (j < length pre)%nat) as [Hlt|Hge].
  - rewrite lookup_app_l in Hj by done.
    destruct (Hpre j Hj) as [->|[-> H0]]; [by left|right].
    split; [done|]. rewrite lookup_app_l; [done|]. by apply lookup_lt_Some in H0.
  - rewrite lookup_app_r in Hj by lia.
    destruct (j - length pre)%nat; simpl in Hj; [congruence | done].
Qed.

(** One iteration: what a returned token is followed by, and where a text
    read so far holds its [$]. *)
Lemma step_spec2 (pre rest : list rune) (r : rune) (st : state) :
  lex_inv st pre →
  (st = stateText → dollars_in_front pre) →
  match step (pre ++ r :: rest) st (Z.of_nat (length pre)) r with
  | Goto st' => st' = stateText → dollars_in_front (pre ++ [r])
  | Emit typ n =>
      delimiter typ r ∧ (typ = itemText → dollars_in_front pre)
  end.
Proof.
  intros Hinv Htext. destruct st; cbv [step lex_inv] in *.
  - subst pre. destruct (r =? chr "$") eqn:E; [done|].
    apply Z.eqb_neq in E. intros _ [|[|j]] Hj; simpl in Hj; [congruence|done..].
  - destruct (r =? chr "$") eqn:E.
    + apply Z.eqb_eq in E. split; [done | auto].
    + apply Z.eqb_neq in E. intros _. apply dollars_in_front_snoc; auto.
  - subst pre. destruct (isIDChar r) eqn:E; [done|].
    intros _ [|[|j]] Hj; simpl in Hj; [by left | by right | done].
  - destruct (r =? chr ".") eqn:Edot.
    + apply Z.eqb_eq in Edot. subst r.
      destruct (String.eqb _ _); [done | by split].
    + destruct (isIDChar r) eqn:E; [done | by split].
  - destruct (isIDChar r) eqn:E; [done | by split].
  - destruct (isIDChar r) eqn:E; [done | by split].
Qed.

Lemma lex_loop_spec2 (rest pre : list rune) (st : state) :
  lex_inv st pre → (st = stateText → dollars_in_front pre) →
  pre ++ rest ≠ [] →
  ∃ typ tok back,
    lex_loop (pre ++ rest) st (Z.of_nat (length pre)) rest
      = (typ, Z.of_nat (length tok)) ∧
    pre ++ rest = tok ++ back ∧ token_ok typ tok ∧ ends_token typ back ∧
    (typ = itemText → dollars_in_front tok).
Proof.
  revert pre st. induction rest as [|r rest IH]; intros pre st Hinv Htext Hne.
  - rewrite app_nil_r in *. simpl.
    destruct st; cbv [lex_inv at_end] in *.
    + done.
    + exists itemText, pre, []. rewrite app_nil_r. split_and!; auto. done.
    + exists itemText, pre, []. rewrite app_nil_r. subst pre.
      split_and!; try done. intros _ [|j] Hj; [by left | done].
    + exists itemField, pre, []. rewrite app_nil_r.
      split_and!; try done. by left.
    + subst pre. exists itemField, (ascii_runes "$header"), [chr "."].
      split_and!; try done. left. exists (ascii_runes "header").
      split; [done | apply ids_ok_header].
    + exists itemHeader, pre, []. rewrite app_nil_r. by split_and!.
  - simpl. pose proof (step_spec pre rest r st Hinv) as Hstep.
    pose proof (step_spec2 pre rest r st Hinv Htext) as Hstep2.
    destruct (step (pre ++ r :: rest) st (Z.of_nat (length pre)) r)
      as [st'|typ n].
    + destruct (IH (pre ++ [r]) st' Hstep Hstep2)
        as (typ & tok & back & Hlex & Hs & Hok & Hend & Hd).
      { by destruct pre. }
      rewrite <- app_assoc in Hlex, Hs. simpl in Hlex, Hs.
      rewrite length_app in Hlex. simpl in Hlex.
      replace (Z.of_nat (length pre + 1)) with (Z.of_nat (length pre) + 1)
        in Hlex by lia.
      by exists typ, tok, back.
    + destruct Hstep as [-> Hok]. destruct Hstep2 as [Hdel Hd].
      by exists typ, pre, (r :: rest).
Qed.

Lemma lex_full (s : list rune) :
  s ≠ [] →
  ∃ typ tok back,
    lex s = (typ, Z.of_nat (length tok)) ∧ s = tok ++ back ∧
    token_ok typ tok ∧ ends_token typ back ∧
    (typ = itemText → dollars_in_front tok).
Proof.
  intros Hne. by apply (lex_loop_spec2 s [] stateStart).
Qed.

(** From the states of a field or a header no text is returned. *)
Lemma lex_loop_not_text (s rest : list rune) (st : state) (i : Z) :
  st = stateField ∨ st = stateDot ∨ st = stateHeader →
  (lex_loop s st i rest).1 ≠ itemText.
Proof.
  revert st i. induction rest as [|r rest IH]; intros st i Hst.
  - by destruct Hst as [-> | [-> | ->]].
  - simpl. destruct Hst as [-> | [-> | ->]]; cbv [step];
      repeat case_match; simplify_eq; try done; apply IH; auto.
Qed.

Lemma lex_loop_header (s rest : list rune) (i : Z) :
  (lex_loop s stateHeader i rest).1 = itemHeader.
Proof.
  revert i. induction rest as [|r rest IH]; intros i; [done|].
  simpl. destruct (isIDChar r); [apply IH | done].
Qed.

(** An iteration looks at the input before its index only. *)
Lemma step_prefix (s s' : list rune) (st : state) (i : Z) (r : rune) :
  take (Z.to_nat i) s = take (Z.to_nat i) s' → step s st i r = step s' st i r.
Proof. intros H. destruct st; cbv [step]; by rewrite ?H. Qed.

Lemma take_take_eq (s s' : list rune) (n m : nat) :
  (n ≤ m)%nat → take m s = take m s' → take n s = take n s'.
Proof.
  intros Hle H. rewrite <- (Nat.min_l n m Hle), <- !take_take. by rewrite H.
Qed.

Lemma run_states_prefix (pre s s' : list rune) (st : state) (i : Z) :
  0 <= i →
  take (Z.to_nat i + length pre) s = take (Z.to_nat i + length pre) s' →
  run_states s st i pre = run_states s' st i pre.
Proof.
  revert st i. induction pre as [|r pre IH]; intros st i Hi Heq; [done|].
  simpl. rewrite (step_prefix s s' st i r).
  - destruct (step s' st i r); [|done]. apply IH; [lia|].
    replace (Z.to_nat (i + 1) + length pre)%nat
      with (Z.to_nat i + length (r :: pre))%nat by (simpl; lia).
    done.
  - apply (take_take_eq s s' (Z.to_nat i) (Z.to_nat i + length (r :: pre)));
      [lia | done].
Qed.

Lemma lex_loop_prefix (pre s s' : list rune) (st : state) (i : Z) :
  0 <= i →
  take (Z.to_nat i + length pre) s = take (Z.to_nat i + length pre) s' →
  run_states s st i pre = None →
  lex_loop s st i pre = lex_loop s' st i pre.
Proof.
  revert st i. induction pre as [|r pre IH]; intros st i Hi Heq; [done|].
  simpl. rewrite (step_prefix s s' st i r).
  - destruct (step s' st i r); [|done]. apply IH; [lia|].
    replace (Z.to_nat (i + 1) + length pre)%nat
      with (Z.to_nat i + length (r :: pre))%nat by (simpl; lia).
    done.
  - apply (take_take_eq s s' (Z.to_nat i) (Z.to_nat i + length (r :: pre)));
      [lia | done].
Qed.

(** Once the loop has returned, what follows in the input is not read. *)
Lemma lex_loop_returned (s pre rest : list rune) (st : state) (i : Z) :
  run_states s st i pre = None →
  lex_loop s st i (pre ++ rest) = lex_loop s st i pre.
Proof.
  revert st i. induction pre as [|r pre IH]; intros st i; [done|].
  simpl. destruct (step s st i r); [apply IH | done].
Qed.

(** The loop returns its index or a later one, but for the Dot state at
    the end of the input. *)
Lemma lex_loop_lower (s rest : list rune) (st : state) (i : Z) :
  i + Z.of_nat (length rest) = Z.of_nat (length s) →
  i <= (lex_loop s st i rest).2 ∨
  run_states s st i rest = Some stateDot.
Proof.
  revert st i. induction rest as [|r rest IH]; intros st i Hlen.
  - simpl in *. destruct st; simpl; try (left; lia). by right.
  - simpl. destruct (step s st i r) as [st'|typ n] eqn:E.
    + destruct (IH st' (i + 1)) as [H|H]; [simpl in Hlen; lia | left; lia | by right].
    + apply step_emit_index in E as ->. left. simpl. lia.
Qed.

(** ** More about the compiler *)

Lemma compile_Forall2 (flds : gmap string (option field))
    (toks : list (itemType * list rune)) :
  ∀ p p' : pattern,
    compile flds toks p = Returns (p', None) ↔
    ∃ q, Forall2 (λ t f, token_field flds t = Some f) toks q ∧ p' = p ++ q.
Proof.
  assert (Hcons : ∀ (t : itemType * list rune) (f : field) toks' (p p' : pattern),
    token_field flds t = Some f →
    (compile flds toks' (p ++ [f]) = Returns (p', None) ↔
     ∃ q, Forall2 (λ t f, token_field flds t = Some f) toks' q ∧
          p' = (p ++ [f]) ++ q) →
    (compile flds toks' (p ++ [f]) = Returns (p', None) ↔
     ∃ q, Forall2 (λ t f, token_field flds t = Some f) (t :: toks') q ∧
          p' = p ++ q)).
  { intros t f toks' p p' Hf IH. rewrite IH. split.
    - intros (q & Hq & ->). exists (f :: q). split; [by constructor|].
      by rewrite <- app_assoc.
    - intros (q & Hq & ->). apply Forall2_cons_inv_l in Hq as (f' & q' & Hf' & Hq' & ->).
      exists q'. split; [done|]. rewrite <- app_assoc.
      rewrite Hf in Hf'. by injection Hf' as <-. }
  induction toks as [|[typ tok] toks IH]; intros p p'.
  - cbn [compile]. split.
    + intros [= <-]. exists []. split; [constructor | by rewrite app_nil_r].
    + intros (q & Hq & ->). apply Forall2_nil_inv_l in Hq as ->.
      by rewrite app_nil_r.
  - cbn [compile]. destruct typ.
    + by apply Hcons.
    + destruct (index_fields flds (string_of_runes tok)) as [f|] eqn:Ef.
      * by apply Hcons.
      * split; [done|]. intros (q & Hq & _).
        apply Forall2_cons_inv_l in Hq as (f' & q' & Hf' & _).
        unfold token_field in Hf'. cbn [fst snd] in Hf'. congruence.
    + destruct (Str.slice_from _ _) as [name|] eqn:En.
      * apply Hcons; [|done]. unfold token_field. cbn [fst snd]. by rewrite En.
      * split; [done|]. intros (q & Hq & _).
        apply Forall2_cons_inv_l in Hq as (f' & q' & Hf' & _).
        unfold token_field in Hf'. cbn [fst snd] in Hf'. by rewrite En in Hf'.
Qed.

Lemma token_field_known (flds : gmap string (option field))
    (toks : list (itemType * list rune)) :
  Forall (λ t, token_ok t.1 t.2) toks →
  (∃ q, Forall2 (λ t f, token_field flds t = Some f) toks q) ↔
  Forall (known flds) toks.
Proof.
  induction 1 as [|[typ tok] toks Hok _ IH].
  - split; [constructor | exists []; constructor].
  - rewrite Forall_cons, <- IH. split.
    + intros (q & Hq). apply Forall2_cons_inv_l in Hq as (f & q' & Hf & Hq' & ->).
      split; [|by exists q'].
      unfold known, token_field in *. cbn [fst snd] in *. intros ->. congruence.
    + intros [Hk (q & Hq)].
      assert (Hf : ∃ f, token_field flds (typ, tok) = Some f).
      { unfold known, token_field in *. cbn [fst snd] in *.
        destruct typ; cbn [token_ok] in Hok.
        - by eexists.
        - destruct (index_fields flds (string_of_runes tok)); [by eexists|].
          by destruct Hk.
        - destruct Hok as (ids & -> & _). rewrite header_name. by eexists. }
      destruct Hf as [f Hf]. exists (f :: q). by constructor.
Qed.

Lemma concat_strings_app (l1 l2 : list string) :
  concat_strings (l1 ++ l2) = concat_strings l1 +:+ concat_strings l2.
Proof.
  induction l1 as [|s l1 IH]; simpl; [done|].
  by rewrite IH, StrFacts.app_assoc.
Qed.

Lemma render_concat (p : pattern) (t1 t2 : Time) (w : http_Response)
    (r : http_Request) :
  Forall appends p →
  ∀ b, render p b t1 t2 w r
       = b +:+ concat_strings ((λ f : field, f "" t1 t2 w r) <$> p).
Proof.
  unfold render. induction 1 as [|f p Hf _ IH]; intros b; simpl.
  - by rewrite StrFacts.app_nil_r.
  - rewrite IH, (Hf b). by rewrite StrFacts.app_assoc.
Qed.

Lemma token_field_output (t : itemType * list rune) (f : field)
    (t1 t2 : Time) (w : http_Response) (r : http_Request) :
  token_ok t.1 t.2 →
  token_field fields t = Some f →
  f "" t1 t2 w r = token_output t t1 t2 w r.
Proof.
  destruct t as [typ tok]. unfold token_field, token_output. cbn [fst snd].
  intros Hok Hf. destruct typ; cbn [token_ok] in Hok.
  - by injection Hf as <-.
  - by rewrite Hf.
  - destruct Hok as (ids & -> & _). rewrite header_name in Hf.
    injection Hf as <-.
    change 8%nat with (length (ascii_runes "$header.")).
    by rewrite drop_app_length.
Qed.

Lemma pattern_outputs (toks : list (itemType * list rune)) (q : pattern)
    (t1 t2 : Time) (w : http_Response) (r : http_Request) :
  Forall (λ t, token_ok t.1 t.2) toks →
  Forall2 (λ t f, token_field fields t = Some f) toks q →
  (λ f : field, f "" t1 t2 w r) <$> q
  = (λ t, token_output t t1 t2 w r) <$> toks.
Proof.
  intros Hok Hq. induction Hq as [|t f toks q Hf _ IH]; [done|].
  apply Forall_cons in Hok as [Ht Hok]. rewrite !fmap_cons.
  f_equal; [by apply token_field_output | by apply IH].
Qed.

Lemma lex_no_dollar (s : list rune) :
  s ≠ [] → chr "$" ∉ s → lex s = (itemText, Z.of_nat (length s)).
Proof.
  intros Hne Hno.
  destruct (lex_full s Hne) as (typ & tok & back & Hlex & Hs & Hok & Hend & _).
  assert (Hhead : ∀ l1 l2, s = (chr "$" :: l1) ++ l2 → False).
  { intros l1 l2 Heq. apply Hno. rewrite Heq. by left. }
  destruct typ; cbn [token_ok] in Hok.
  - destruct back as [|c back].
    + rewrite app_nil_r in Hs. by subst tok.
    + simpl in Hend. subst c. exfalso. apply Hno. rewrite Hs.
      apply elem_of_app. right. by left.
  - exfalso. destruct Hok as [(ids & -> & _) | ->].
    + exact (Hhead _ _ Hs).
    + exact (Hhead (ascii_runes "header.") back Hs).
  - exfalso. destruct Hok as (ids & -> & _).
    exact (Hhead (ascii_runes "header." ++ ids) back Hs).
Qed.

Lemma tokenize_no_dollar (s : list rune) :
  s ≠ [] → chr "$" ∉ s → tokenize s = [(itemText, s)].
Proof.
  intros Hne Hno. destruct s as [|r0 s0]; [done|].
  destruct (tokens_cons r0 s0) as (typ & tok & back & Htok & Hlex & Hs & _ & _).
  rewrite lex_no_dollar in Hlex by done. injection Hlex as <- Hlen.
  apply Nat2Z.inj in Hlen.
  assert (back = []) as ->.
  { apply (f_equal length) in Hs. rewrite length_app in Hs.
    destruct back; [done | simpl in *; lia]. }
  rewrite app_nil_r in Hs. by rewrite Htok, Hs.
Qed.

(** Each key of the field table is one Field token, and holds a function. *)
Lemma fields_list_keys :
  Forall (λ kv : string * option field,
            tokenize (runes_of_string kv.1)
              = [(itemField, runes_of_string kv.1)] ∧
            string_of_runes (runes_of_string kv.1) = kv.1 ∧
            is_Some kv.2)
    fields_list.
Proof.
  unfold fields_list.
  repeat (apply Forall_cons; split;
          [cbn [fst snd]; split_and!;
             [vm_compute; reflexivity | vm_compute; reflexivity | by eexists]|]).
  by apply Forall_nil.
Qed.

(** Runs of identifier characters keep the Field and the Header state,
    runs without [$] keep the Text state. *)
Lemma run_states_field_ids (s ids : list rune) (i : Z) :
  Forall (λ c, isIDChar c = true) ids →
  run_states s stateField i ids = Some stateField.
Proof.
  intros Hids. revert i. induction Hids as [|c ids Hc _ IH]; intros i; [done|].
  cbn [run_states]. cbv [step].
  pose proof (isIDChar_ascii c Hc) as (_ & _ & Hdot).
  apply Z.eqb_neq in Hdot. rewrite Hdot, Hc. apply IH.
Qed.

Lemma run_states_header_ids (s ids : list rune) (i : Z) :
  Forall (λ c, isIDChar c = true) ids →
  run_states s stateHeader i ids = Some stateHeader.
Proof.
  intros Hids. revert i. induction Hids as [|c ids Hc _ IH]; intros i; [done|].
  cbn [run_states]. cbv [step]. rewrite Hc. apply IH.
Qed.

Lemma run_states_text (s txt : list rune) (i : Z) :
  chr "$" ∉ txt → run_states s stateText i txt = Some stateText.
Proof.
  revert i. induction txt as [|c txt IH]; intros i Hno; [done|].
  apply not_elem_of_cons in Hno as [Hc Hno].
  cbn [run_states]. cbv [step].
  replace (c =? chr "$") with false by (symmetry; apply Z.eqb_neq; congruence).
  by apply IH.
Qed.

(** ** Decoding what was encoded *)

Lemma land_ones_31 (a : Z) : Z.land a 31 = a mod 32.
Proof. change 31 with (Z.ones 5). by rewrite Z.land_ones by lia. Qed.
Lemma land_ones_63 (a : Z) : Z.land a 63 = a mod 64.
Proof. change 63 with (Z.ones 6). by rewrite Z.land_ones by lia. Qed.
Lemma land_ones_15 (a : Z) : Z.land a 15 = a mod 16.
Proof. change 15 with (Z.ones 4). by rewrite Z.land_ones by lia. Qed.
Lemma land_ones_7 (a : Z) : Z.land a 7 = a mod 8.
Proof. change 7 with (Z.ones 3). by rewrite Z.land_ones by lia. Qed.

Lemma shiftr_6 (a : Z) : Z.shiftr a 6 = a / 64.
Proof. by rewrite Z.shiftr_div_pow2 by lia. Qed.
Lemma shiftr_12 (a : Z) : Z.shiftr a 12 = a / 4096.
Proof. by rewrite Z.shiftr_div_pow2 by lia. Qed.
Lemma shiftr_18 (a : Z) : Z.shiftr a 18 = a / 262144.
Proof. by rewrite Z.shiftr_div_pow2 by lia. Qed.

Lemma valid_rune_spec (r : rune) :
  valid_rune r = true ↔ 0 <= r < 55296 ∨ 57343 < r <= 1114111.
Proof.
  unfold valid_rune.
  rewrite orb_true_iff, !andb_true_iff, !Z.leb_le, !Z.ltb_lt. lia.
Qed.

Ltac to_div :=
  rewrite ?shiftr_6, ?shiftr_12, ?shiftr_18,
    ?land_ones_63, ?land_ones_31, ?land_ones_15, ?land_ones_7.

Ltac cond_true := symmetry; first [apply Z.ltb_lt | apply Z.leb_le | apply Z.eqb_eq];
  Z.to_euclidean_division_equations; lia.
Ltac cond_false := symmetry; first [apply Z.ltb_ge | apply Z.leb_gt | apply Z.eqb_neq];
  Z.to_euclidean_division_equations; lia.

Ltac decide_conds :=
  repeat match goal with
         | |- context [?a <? ?b] =>
             first [replace (a <? b) with true by cond_true
                   |replace (a <? b) with false by cond_false]
         | |- context [?a <=? ?b] =>
             first [replace (a <=? b) with true by cond_true
                   |replace (a <=? b) with false by cond_false]
         | |- context [?a =? ?b] =>
             first [replace (a =? b) with true by cond_true
                   |replace (a =? b) with false by cond_false]
         end.

Ltac split_eqs :=
  decide_conds;
  repeat match goal with
         | |- context [?a =? ?b] => destruct (Z.eqb_spec a b)
         end.

(** [[]rune(string(r) + rest)] starts with [r], for a Unicode scalar value
    [r]. *)
Lemma runes_of_string_encode_rune (r : rune) (rest : string) :
  valid_rune r = true →
  runes_of_string (encode_rune r +:+ rest) = r :: runes_of_string rest.
Proof.
  intros Hv. unfold encode_rune. rewrite Hv.
  apply valid_rune_spec in Hv.
  destruct (r <? 128) eqn:E1.
  { apply Z.ltb_lt in E1. cbn [String.append runes_of_string].
    rewrite chr_byte_of by lia. by replace (r <? 128) with true by cond_true. }
  apply Z.ltb_ge in E1.
  destruct (r <? 2048) eqn:E2.
  { apply Z.ltb_lt in E2. cbn [String.append runes_of_string].
    unfold in_range, cont. to_div.
    rewrite !chr_byte_of by (Z.to_euclidean_division_equations; lia).
    to_div. split_eqs; decide_conds; cbn [andb]; f_equal;
      Z.to_euclidean_division_equations; lia. }
  apply Z.ltb_ge in E2.
  destruct (r <? 65536) eqn:E3.
  { apply Z.ltb_lt in E3. cbn [String.append runes_of_string].
    unfold in_range, cont. to_div.
    rewrite !chr_byte_of by (Z.to_euclidean_division_equations; lia).
    to_div. split_eqs; decide_conds; cbn [andb]; f_equal;
      Z.to_euclidean_division_equations; lia. }
  apply Z.ltb_ge in E3.
  cbn [String.append runes_of_string].
  unfold in_range, cont. to_div.
  rewrite !chr_byte_of by (Z.to_euclidean_division_equations; lia).
  to_div. split_eqs; decide_conds; cbn [andb]; f_equal;
    Z.to_euclidean_division_equations; lia.
Qed.

Lemma runes_of_string_of_runes (rs : list rune) :
  Forall (λ r, valid_rune r = true) rs →
  runes_of_string (string_of_runes rs) = rs.
Proof.
  induction 1 as [|r rs Hr _ IH]; [done|].
  cbn [string_of_runes]. rewrite runes_of_string_encode_rune by done.
  by rewrite IH.
Qed.

Lemma encode_rune_nonempty (r : rune) : encode_rune r ≠ "".
Proof. by destruct (encode_rune_head r) as (c & rest & -> & _). Qed.

(** ** More about the renderers *)

Lemma lower_byte_upper (c : ascii) :
  65 <= chr c <= 90 →
  lower_byte c = byte_of (chr c + 32) ∧ chr (lower_byte c) = chr c + 32.
Proof.
  intros Hc. unfold lower_byte.
  replace ((65 <=? chr c) && (chr c <=? 90)) with true
    by (symmetry; apply andb_true_iff; split; apply Z.leb_le; lia).
  split; [done|]. apply chr_byte_of. lia.
Qed.

Lemma lower_byte_other (c : ascii) :
  ¬ 65 <= chr c <= 90 → lower_byte c = c.
Proof.
  intros Hc. unfold lower_byte.
  destruct ((65 <=? chr c) && (chr c <=? 90)) eqn:E; [|done].
  apply andb_true_iff in E as [?%Z.leb_le ?%Z.leb_le]. lia.
Qed.

Lemma bool_and_range (lo hi x : Z) :
  (lo <=? x) && (x <=? hi) = bool_decide (lo <= x <= hi).
Proof.
  destruct (bool_decide_reflect (lo <= x <= hi)) as [H|H].
  - apply andb_true_iff; split; apply Z.leb_le; lia.
  - apply andb_false_iff.
    destruct (Z.leb_spec lo x); [right; apply Z.leb_gt; lia | by left].
Qed.

Lemma validHeaderFieldByte_lower (c : ascii) :
  validHeaderFieldByte (lower_byte c) = validHeaderFieldByte c.
Proof.
  destruct (decide (65 <= chr c <= 90)) as [Hc|Hc].
  - destruct (lower_byte_upper c Hc) as [_ Hl]. unfold validHeaderFieldByte.
    cbv zeta. rewrite Hl, !bool_and_range.
    rewrite (bool_decide_eq_true_2 (97 <= chr c + 32 <= 122)) by lia.
    rewrite (bool_decide_eq_true_2 (65 <= chr c <= 90)) by lia.
    by rewrite orb_true_r.
  - by rewrite lower_byte_other.
Qed.

Lemma all_valid_lower (s : string) :
  all_bytes validHeaderFieldByte (to_lower s)
  = all_bytes validHeaderFieldByte s.
Proof.
  induction s as [|c s IH]; [done|]. simpl.
  by rewrite validHeaderFieldByte_lower, IH.
Qed.

Lemma canonical_go_lower (u : bool) (s : string) :
  canonical_go u (to_lower s) = canonical_go u s.
Proof.
  revert u. induction s as [|c s IH]; intros u; [done|].
  cbn [to_lower canonical_go]. cbv zeta.
  destruct (decide (65 <= chr c <= 90)) as [Hc|Hc].
  - destruct (lower_byte_upper c Hc) as [Heq Hl]. rewrite Hl.
    destruct u; cbn [andb negb]; decide_conds; cbn [andb].
    + replace (chr c + 32 - 32) with (chr c) by lia.
      by rewrite byte_of_chr, IH.
    + by rewrite Heq, IH.
  - by rewrite lower_byte_other, IH.
Qed.

Lemma ids_valid_header (ids : list rune) :
  Forall (λ c, isIDChar c = true) ids →
  all_bytes validHeaderFieldByte (string_of_runes ids) = true.
Proof.
  induction 1 as [|c ids Hc _ IH]; [done|].
  pose proof (isIDChar_ascii c Hc) as [Hrange _].
  cbn [string_of_runes]. rewrite encode_rune_ascii by done.
  cbn [String.append all_bytes]. rewrite IH, andb_true_r.
  unfold validHeaderFieldByte. cbv zeta. rewrite chr_byte_of by lia.
  rewrite !bool_and_range. apply isIDChar_spec in Hc.
  destruct Hc as [Hc|[Hc|[Hc|[->| ->]]]]; [| | |by vm_compute..].
  - by rewrite (bool_decide_eq_true_2 (97 <= c <= 122)) by lia.
  - rewrite (bool_decide_eq_true_2 (65 <= c <= 90)) by lia.
    by rewrite orb_true_r.
  - rewrite (bool_decide_eq_true_2 (48 <= c <= 57)) by lia.
    by rewrite orb_true_r.
Qed.

Lemma canonical_key_lower (name1 name2 : string) :
  all_bytes validHeaderFieldByte name1 = true →
  to_lower name1 = to_lower name2 →
  CanonicalMIMEHeaderKey name1 = CanonicalMIMEHeaderKey name2.
Proof.
  intros Hv Hl. unfold CanonicalMIMEHeaderKey.
  assert (Hv2 : all_bytes validHeaderFieldByte name2 = true).
  { by rewrite <- all_valid_lower, <- Hl, all_valid_lower. }
  rewrite Hv, Hv2.
  by rewrite <- (canonical_go_lower true name1), Hl, canonical_go_lower.
Qed.

Lemma Len_app (b s : string) : Len (b +:+ s) = Len b + Str.len s.
Proof. unfold Len, Str.len. rewrite StrFacts.length_app. lia. Qed.

Lemma Len_WriteRune (b : Buffer) (c : ascii) :
  chr c < 128 → Len (WriteRune b (chr c)) = Len b + 1.
Proof. intros Hc. by rewrite WriteRune_ascii, Len_app by done. Qed.

Lemma Len_WriteString (b : Buffer) (s : string) :
  Len (WriteString b s) = Len b + Str.len s.
Proof. apply Len_app. Qed.

Lemma Len_atoi (b : Buffer) (v pad : Z) :
  1 <= pad → 0 <= v < 10 ^ pad → Len (atoi b v pad) = Len b + pad.
Proof.
  intros Hpad Hv.
  destruct (atoi_spec b v pad)
    as (body & nd & Heq & _ & _ & Hnd & Hlt & Hge & Hlen).
  rewrite Heq. unfold sign_of. replace (v <? 0) with false by lia.
  rewrite StrFacts.app_nil_l, Len_app, Hlen.
  rewrite Z.abs_eq in * by lia.
  pose proof (pow10_digits_le nd pad v ltac:(lia) ltac:(lia) Hge Hpad). lia.
Qed.

Lemma Len_month_name (m : Z) : 1 <= m <= 12 → Str.len (month_name m) = 3.
Proof.
  intros Hm. unfold month_name.
  assert (Hcases : ∃ k : nat, Z.to_nat m = k ∧ (1 ≤ k ≤ 12)%nat)
    by (exists (Z.to_nat m); lia).
  destruct Hcases as (k & -> & Hk).
  do 13 (destruct k as [|k]; [by (lia || reflexivity)|]). lia.
Qed.

Lemma subsecond_bound (t : Time) (unit_ pad : Z) :
  0 < unit_ → Second_unit = unit_ * 10 ^ pad → 0 <= pad →
  0 <= Z.quot (Nanosecond t) unit_ < 10 ^ pad.
Proof.
  intros Hu Hs Hp. unfold Nanosecond.
  assert (0 < 10 ^ pad) by (apply Z.pow_pos_nonneg; lia).
  pose proof (Z.mod_pos_bound (instant t) Second_unit ltac:(unfold Second_unit; lia)) as Hb.
  rewrite Z.quot_div_nonneg by lia. rewrite Hs in *. split.
  - apply Z.div_pos; lia.
  - apply Z.div_lt_upper_bound; lia.
Qed.

(** ** Further properties of the lexer *)

Lemma lex_dollar_id (c : rune) (rest : list rune) :
  isIDChar c = true →
  lex (chr "$" :: c :: rest)
  = lex_loop (chr "$" :: c :: rest) stateField 2 rest.
Proof.
  intros Hc. unfold lex. cbn [lex_loop]. cbv [step].
  rewrite Z.eqb_refl. cbn [lex_loop]. cbv [step]. by rewrite Hc.
Qed.

Lemma lex_header_dot (c : rune) (rest : list rune) :
  lex (ascii_runes "$header." ++ c :: rest)
  = lex_loop (ascii_runes "$header." ++ c :: rest) stateDot 8 (c :: rest).
Proof.
  unfold lex.
  apply (lex_loop_run_states _ (ascii_runes "$header.") (c :: rest)
           stateStart stateDot 0).
  rewrite (run_states_prefix _ _ (ascii_runes "$header.")); [by vm_compute|lia|].
  change (Z.to_nat 0 + length (ascii_runes "$header."))%nat
    with (length (ascii_runes "$header.")).
  by rewrite take_app_length, firstn_all.
Qed.

(** X1. The kind of the token [lex] returns is read off the start of the
    input: a Header token exactly when the input starts with [$header.]
    and an identifier character, a Text token exactly when it does not
    start with [$] and an identifier character, a Field token otherwise. *)
Theorem lex_kind_by_prefix (s : list rune) :
  ((lex s).1 = itemText ↔
     ¬ ∃ c rest, s = chr "$" :: c :: rest ∧ isIDChar c = true) ∧
  ((lex s).1 = itemHeader ↔
     ∃ c rest, s = ascii_runes "$header." ++ c :: rest ∧ isIDChar c = true).
Proof.
  split; split.
  - intros Htext (c & rest & -> & Hc). rewrite (lex_dollar_id c rest Hc) in Htext.
    by apply lex_loop_not_text in Htext; [|left].
  - intros Hno. destruct s as [|r s]; [done|].
    destruct (lex_spec (r :: s)) as (typ & tok & back & Hlex & Hs & Hok); [done|].
    rewrite Hlex. destruct typ; [done| |]; exfalso; apply Hno;
      cbn [token_ok] in Hok.
    + destruct Hok as [(ids & -> & Hne & Hall) | ->].
      * destruct ids as [|c ids]; [done|]. apply Forall_cons in Hall as [Hc _].
        by exists c, (ids ++ back).
      * by exists (chr "h"), (ascii_runes "eader." ++ back).
    + destruct Hok as (ids & -> & Hne & Hall).
      by exists (chr "h"), (ascii_runes "eader." ++ ids ++ back).
  - intros Hh. destruct s as [|r s]; [done|].
    destruct (lex_spec (r :: s)) as (typ & tok & back & Hlex & Hs & Hok); [done|].
    rewrite Hlex in Hh. simpl in Hh. subst typ. cbn [token_ok] in Hok.
    destruct Hok as (ids & -> & Hne & Hall).
    destruct ids as [|c ids]; [done|]. apply Forall_cons in Hall as [Hc _].
    exists c, (ids ++ back). split; [|done].
    rewrite Hs. by rewrite <- app_assoc.
  - intros (c & rest & -> & Hc). rewrite lex_header_dot.
    cbn [lex_loop]. cbv [step]. rewrite Hc. apply lex_loop_header.
Qed.

(** X2. [lex] takes the longest token: what follows the token it returns,
    if anything does, is a [$] after a Text token and a rune that is no
    identifier character after a Field or a Header token. *)
Theorem lex_token_delimited (s : list rune) :
  match s !! Z.to_nat (lex s).2 with
  | Some c => delimiter (lex s).1 c
  | None => (lex s).2 = Z.of_nat (length s)
  end.
Proof.
  destruct s as [|r s]; [done|].
  destruct (lex_full (r :: s)) as (typ & tok & back & Hlex & Hs & _ & Hend & _);
    [done|].
  rewrite Hlex, Hs. simpl. rewrite Nat2Z.id.
  rewrite lookup_app_r by done. rewrite Nat.sub_diag.
  destruct back as [|c back]; simpl.
  - by rewrite app_nil_r.
  - done.
Qed.

(** X3. A Text token holds no [$] past its first two runes: one at its
    second rune has another one before it, so that literal text runs up
    to the next [$] of the input. *)
Theorem lex_text_dollars (s : list rune) (j : nat) :
  (lex s).1 = itemText →
  Z.of_nat j < (lex s).2 →
  s !! j = Some (chr "$") →
  j = 0%nat ∨ (j = 1%nat ∧ s !! 0%nat = Some (chr "$")).
Proof.
  intros Htext Hj Hd. destruct s as [|r s]; [done|].
  destruct (lex_full (r :: s)) as (typ & tok & back & Hlex & Hs & _ & _ & Hfront);
    [done|].
  rewrite Hlex in Htext, Hj. simpl in Htext, Hj. rewrite Hs in *.
  rewrite lookup_app_l in Hd by lia.
  destruct (Hfront Htext j Hd) as [->|[-> H0]]; [by left|right].
  split; [done|]. rewrite lookup_app_l; [done|]. lia.
Qed.

Lemma lex_text_dollars_witness :
  (lex (ascii_runes "$$a$b")).1 = itemText ∧
  (lex (ascii_runes "$$a$b")).2 = 3 ∧
  (1%nat = 0%nat ∨
   (1%nat = 1%nat ∧ ascii_runes "$$a$b" !! 0%nat = Some (chr "$"))).
Proof.
  split; [reflexivity|]. split; [reflexivity|].
  exact (lex_text_dollars (ascii_runes "$$a$b") 1 eq_refl eq_refl eq_refl).
Defined.

(** X4. [lex] looks one rune past the token it returns and no further:
    when the token ends before the end of the input, every input with the
    same runes up to the one after the token gives the same kind and
    length. The input [$header.] is apart: there the returned length is
    one short of the end only because the input ends. *)
Theorem lex_lookahead (s s' : list rune) :
  (lex s).2 < Z.of_nat (length s) →
  s ≠ ascii_runes "$header." →
  take (Z.to_nat (lex s).2 + 1) s' = take (Z.to_nat (lex s).2 + 1) s →
  lex s' = lex s.
Proof.
  intros Hlt Hnd Htake.
  destruct s as [|r0 s0]; [simpl in Hlt; lia|].
  destruct (lex_spec (r0 :: s0)) as (typ & tok & back & Hlex & Hs & Hok); [done|].
  set (s := r0 :: s0) in *. clearbody s.
  rewrite Hlex in *. cbn [snd] in *. rewrite Nat2Z.id in Htake.
  set (m := S (length tok)).
  replace (length tok + 1)%nat with m in Htake by (subst m; lia).
  assert (Hm : (m ≤ length s)%nat) by (subst m; lia).
  set (common := take m s) in *.
  assert (Hlen : length common = m) by (subst common; rewrite length_take; lia).
  assert (Hs1 : s = common ++ drop m s) by (subst common; by rewrite take_drop).
  assert (Hs2 : s' = common ++ drop m s') by (rewrite <- Htake; by rewrite take_drop).
  assert (Hnone : run_states s stateStart 0 common = None).
  { destruct (run_states s stateStart 0 common) as [st'|] eqn:Hrun; [|done].
    exfalso.
    assert (Hl : lex s = lex_loop s st' (Z.of_nat m) (drop m s)).
    { unfold lex. rewrite Hs1 at 2.
      rewrite (lex_loop_run_states s common (drop m s) _ _ 0 Hrun).
      by rewrite Hlen. }
    destruct (lex_loop_lower s (drop m s) st' (Z.of_nat m)) as [Hge|Hdot].
    - rewrite length_drop. lia.
    - rewrite <- Hl, Hlex in Hge. simpl in Hge. subst m. lia.
    - apply Hnd.
      assert (Hall : state_after s (length s) = Some stateDot).
      { unfold state_after. rewrite firstn_all. rewrite Hs1 at 2.
        rewrite run_states_app, Hrun. simpl. by rewrite Hlen. }
      apply state_after_inv in Hall. cbv [lex_inv] in Hall.
      by rewrite firstn_all in Hall. }
  assert (Hpre : take (Z.to_nat 0 + length common) s
                 = take (Z.to_nat 0 + length common) s').
  { simpl. rewrite Hlen. by rewrite Htake. }
  assert (Hnone' : run_states s' stateStart 0 common = None).
  { by rewrite <- (run_states_prefix common s s' stateStart 0 ltac:(lia) Hpre). }
  pose proof (lex_loop_returned s' common (drop m s') stateStart 0 Hnone') as E1.
  pose proof (lex_loop_returned s common (drop m s) stateStart 0 Hnone) as E2.
  rewrite <- Hs2 in E1. rewrite <- Hs1 in E2.
  rewrite <- Hlex. unfold lex. rewrite E1, E2.
  symmetry. by apply lex_loop_prefix.
Qed.

Lemma lex_lookahead_witness :
  lex (ascii_runes "$a and more") = lex (ascii_runes "$a b") ∧
  lex (ascii_runes "$a b") = (itemField, 2).
Proof.
  split; [|reflexivity].
  apply (lex_lookahead (ascii_runes "$a b") (ascii_runes "$a and more")).
  - vm_compute. reflexivity.
  - discriminate.
  - reflexivity.
Defined.

Example lex_header_dot_end_differs :
  lex (ascii_runes "$header.") = (itemField, 7) ∧
  lex (ascii_runes "$header.x") = (itemHeader, 9).
Proof. split; reflexivity. Qed.

(** ** Further properties of the compiler and the executor *)

(** X5. [parse] returns a pattern without error exactly when it can give
    each token of the input its renderer, and the pattern is then these
    renderers, one for each token and in their order; this is so exactly
    when each Field token has a function in the table (a key with a nil
    function counts as none). *)
Theorem parse_pattern_of_tokens (format : string)
    (flds : gmap string (option field)) :
  let toks := tokenize (runes_of_string format) in
  (∀ p : pattern,
     parse format flds = Returns (p, None) ↔
     Forall2 (λ t f, token_field flds t = Some f) toks p) ∧
  ((∃ p : pattern, parse format flds = Returns (p, None)) ↔
   Forall (known flds) toks).
Proof.
  intros toks. split.
  - intros p. rewrite parse_compile, compile_Forall2. fold toks. split.
    + by intros (q & Hq & ->).
    + intros Hq. by exists p.
  - rewrite <- (token_field_known flds toks (tokenize_ok _)). split.
    + intros [p Hp]. exists p.
      rewrite parse_compile, compile_Forall2 in Hp. by destruct Hp as (q & Hq & ->).
    + intros [q Hq]. exists q. rewrite parse_compile, compile_Forall2. by exists q.
Qed.

(** X6. What a pattern compiled against the field table renders is the
    buffer followed by what its tokens stand for, in order: the text of a
    Text token as it is, the value of the request header a Header token
    names, and what the function of a Field token writes. [write] adds
    one line terminator to that, unless buffer and outputs are all empty;
    on an empty buffer it gives the outputs and the terminator, or
    nothing. *)
Theorem render_concatenates_tokens (format : string) (p : pattern)
    (t1 t2 : Time) (w : http_Response) (r : http_Request) :
  parse format fields = Returns (p, None) →
  let out :=
    concat_strings
      ((λ t, token_output t t1 t2 w r) <$> tokenize (runes_of_string format)) in
  (∀ b : Buffer, render p b t1 t2 w r = b +:+ out) ∧
  (∀ b : Buffer,
     write p b t1 t2 w r
     = if Len (b +:+ out) =? 0 then "" else b +:+ out +:+ String "010" "") ∧
  write p "" t1 t2 w r = (if Len out =? 0 then "" else out +:+ String "010" "").
Proof.
  intros Hparse out. rewrite parse_compile in Hparse.
  pose proof (compile_appends fields _ fields_appends [] p
                ltac:(constructor) Hparse) as Happ.
  assert (Hrender : ∀ b : Buffer, render p b t1 t2 w r = b +:+ out).
  { intros b. rewrite (render_concat p t1 t2 w r Happ). f_equal. unfold out.
    f_equal. apply compile_Forall2 in Hparse as (q & Hq & ->). simpl.
    apply pattern_outputs; [apply tokenize_ok | done]. }
  assert (Hwrite : ∀ b : Buffer,
    write p b t1 t2 w r
    = if Len (b +:+ out) =? 0 then "" else b +:+ out +:+ String "010" "").
  { intros b. unfold write. rewrite Hrender.
    destruct (Len (b +:+ out) =? 0) eqn:E.
    - apply Z.eqb_eq in E. by destruct (b +:+ out).
    - unfold WriteRune. by rewrite StrFacts.app_assoc. }
  split; [done|]. split; [done|].
  by rewrite (Hwrite ""), !StrFacts.app_nil_l.
Qed.

Lemma render_concatenates_tokens_witness :
  render sample_pattern "" test_t1 test_t2 test_resp test_req
  = "GET to http://foo.com/".
Proof.
  rewrite (proj1 (render_concatenates_tokens sample_format sample_pattern
                    test_t1 test_t2 test_resp test_req eq_refl) "").
  reflexivity.
Defined.

(** X7. A format without [$] is one literal text: for every non-empty
    sequence of Unicode scalar values without [$], the format that is its
    UTF-8 encoding compiles, whatever the table, to the single renderer
    of that very string, and [write] on an empty buffer gives the format
    byte for byte, followed by the line terminator. *)
Theorem literal_format_verbatim (rs : list rune)
    (flds : gmap string (option field)) (t1 t2 : Time)
    (w : http_Response) (r : http_Request) :
  rs ≠ [] →
  Forall (λ c, valid_rune c = true) rs →
  chr "$" ∉ rs →
  parse (string_of_runes rs) flds
    = Returns ([text (string_of_runes rs)], None) ∧
  write [text (string_of_runes rs)] "" t1 t2 w r
    = string_of_runes rs +:+ String "010" "".
Proof.
  intros Hne Hvalid Hno. split.
  - rewrite parse_compile, runes_of_string_of_runes by done.
    by rewrite tokenize_no_dollar.
  - unfold write, render, text, WriteString. cbn [fold_left].
    rewrite StrFacts.app_nil_l.
    assert (Hlen : Len (string_of_runes rs) ≠ 0).
    { destruct rs as [|c rs]; [done|]. cbn [string_of_runes].
      pose proof (encode_rune_nonempty c) as Hc.
      destruct (encode_rune c); [done|]. unfold Len, Str.len. simpl. lia. }
    apply Z.eqb_neq in Hlen. by rewrite Hlen.
Qed.

Lemma literal_format_verbatim_witness :
  parse (string_of_runes [104; 233; 8364; 32; 128512]) test_fields
    = Returns ([text (string_of_runes [104; 233; 8364; 32; 128512])], None) ∧
  write [text (string_of_runes [104; 233; 8364; 32; 128512])] ""
    test_t1 test_t2 test_resp test_req
    = string_of_runes [104; 233; 8364; 32; 128512] +:+ String "010" "".
Proof.
  apply (literal_format_verbatim [104; 233; 8364; 32; 128512]).
  - discriminate.
  - repeat constructor.
  - intros H. repeat (apply elem_of_cons in H as [H|H]; [discriminate H|]).
    by apply elem_of_nil in H.
Defined.

(** X8. Every key of the field table can be written in a format: taken as
    a format string, each key is one Field token, and [parse] returns
    exactly the function the table holds under it. No key holds a nil
    function. *)
Theorem fields_keys_compile (k : string) (entry : option field) :
  fields !! k = Some entry →
  ∃ f : field, entry = Some f ∧ parse k fields = Returns ([f], None).
Proof.
  intros H. pose proof H as Hin. unfold fields in Hin.
  apply elem_of_list_to_map_2 in Hin.
  pose proof fields_list_keys as Hall. rewrite Forall_forall in Hall.
  destruct (Hall _ Hin) as (Htok & Hstr & [f Hf]). cbn [fst snd] in *.
  subst entry. exists f. split; [done|].
  rewrite parse_compile, Htok. cbn [compile]. rewrite Hstr.
  unfold index_fields. by rewrite H.
Qed.

Lemma fields_keys_compile_witness :
  ∃ f : field,
    Some remote_host = Some f ∧ parse "$remote_host" fields = Returns ([f], None).
Proof.
  apply (fields_keys_compile "$remote_host" (Some remote_host)).
  reflexivity.
Defined.

(** ** Further properties of the renderers *)

(** X9. The renderer of a header does not depend on the case of the
    letters of its name: two names made of identifier characters, as the
    names of Header tokens are, that agree up to ASCII letter case render
    the same. *)
Theorem header_case_insensitive (ids1 ids2 : list rune) (b : Buffer)
    (t1 t2 : Time) (w : http_Response) (r : http_Request) :
  Forall (λ c, isIDChar c = true) ids1 →
  to_lower (string_of_runes ids1) = to_lower (string_of_runes ids2) →
  header (string_of_runes ids1) b t1 t2 w r
  = header (string_of_runes ids2) b t1 t2 w r.
Proof.
  intros Hids Hl. unfold header, Header_Get.
  by rewrite (canonical_key_lower _ _ (ids_valid_header ids1 Hids) Hl).
Qed.

Lemma header_case_insensitive_witness :
  header (string_of_runes (ascii_runes "user-agent")) ""
    test_t1 test_t2 test_resp test_req
  = header (string_of_runes (ascii_runes "USER-Agent")) ""
      test_t1 test_t2 test_resp test_req.
Proof.
  apply (header_case_insensitive (ascii_runes "user-agent")
           (ascii_runes "USER-Agent")).
  - repeat constructor.
  - reflexivity.
Defined.

Ltac len_steps :=
  repeat first
    [ rewrite Len_WriteRune by (by vm_compute)
    | rewrite Len_WriteString
    | rewrite Len_atoi by (first [lia | split; [lia | change (10 ^ 2) with 100; lia]
                                 | split; [lia | change (10 ^ 4) with 10000; lia]
                                 | by apply subsecond_bound]) ].

(** X10. For an end time whose calendar reading has a year from 0 to 9999
    (and month, day, hour, minute and second in their ranges) the time
    fields have a fixed width: [$time_rfc3339] adds 20 bytes to the
    buffer, [$time_rfc3339_ms], [_us] and [_ns] add 24, 27 and 30, and
    [$time_common] adds 26, with the numeric formatter as the
    specification describes it. *)
Theorem time_fields_width (t2 : Time) :
  calendar_ok t2 →
  adds_bytes "$time_rfc3339" t2 20 ∧
  adds_bytes "$time_rfc3339_ms" t2 24 ∧
  adds_bytes "$time_rfc3339_us" t2 27 ∧
  adds_bytes "$time_rfc3339_ns" t2 30 ∧
  adds_bytes "$time_common" t2 26.
Proof.
  intros (Hy & Hmo & Hd & Hh & Hmi & Hs).
  assert (Hdt : ∀ b, Len (date_time b t2) = Len b + 19).
  { intros b. unfold date_time. len_steps. lia. }
  split_and!; eexists; (split; [reflexivity|]); intros b t1 w r.
  - cbv beta zeta. rewrite Len_WriteRune by (by vm_compute). rewrite Hdt. lia.
  - unfold time_rfc3339_frac. len_steps. rewrite Hdt. lia.
  - unfold time_rfc3339_frac. len_steps. rewrite Hdt. lia.
  - unfold time_rfc3339_frac. len_steps. rewrite Hdt. lia.
  - cbv beta zeta. len_steps. rewrite Len_month_name by done.
    change (Str.len " +0000") with 6. lia.
Qed.

Lemma time_fields_width_witness :
  adds_bytes "$time_rfc3339" test_t2 20 ∧
  adds_bytes "$time_rfc3339_ms" test_t2 24 ∧
  adds_bytes "$time_rfc3339_us" test_t2 27 ∧
  adds_bytes "$time_rfc3339_ns" test_t2 30 ∧
  adds_bytes "$time_common" test_t2 26.
Proof.
  apply (time_fields_width test_t2).
  unfold calendar_ok. simpl. lia.
Defined.

(** ** The token of an input, exactly *)

(** X11. What [lex] returns for an input that starts with a token and
    goes on with a rune that ends it, or ends there.
    A [$] and identifier characters, followed by a rune that is no
    identifier character, are a Field token of just that length, unless
    the text is [$header] and a dot follows.
    [$header.] and identifier characters, followed by a rune that is no
    identifier character, are a Header token of just that length.
    A text without [$], followed by a [$], is a Text token of just that
    length. *)
Theorem lex_exact_token :
  (∀ ids back : list rune,
     ids_ok ids → ends_token itemField back →
     ¬ (ids = ascii_runes "header" ∧ ∃ back', back = chr "." :: back') →
     lex (chr "$" :: ids ++ back) = (itemField, Z.of_nat (S (length ids)))) ∧
  (∀ ids back : list rune,
     ids_ok ids → ends_token itemHeader back →
     lex (ascii_runes "$header." ++ ids ++ back)
     = (itemHeader, Z.of_nat (8 + length ids))) ∧
  (∀ txt back : list rune,
     txt ≠ [] → chr "$" ∉ txt → ends_token itemText back →
     lex (txt ++ back) = (itemText, Z.of_nat (length txt))).
Proof.
  split_and!.
  - intros ids back [Hne Hids] Hend Hnot.
    set (s := chr "$" :: ids ++ back).
    assert (Hrun : run_states s stateStart 0 (chr "$" :: ids) = Some stateField).
    { destruct ids as [|c ids]; [done|]. apply Forall_cons in Hids as [Hc Hids].
      cbn [run_states]. cbv [step]. rewrite Z.eqb_refl.
      cbn [run_states]. cbv [step]. rewrite Hc. by apply run_states_field_ids. }
    unfold lex.
    change s with ((chr "$" :: ids) ++ back) at 2.
    rewrite (lex_loop_run_states s _ back _ _ 0 Hrun).
    destruct back as [|c back].
    + cbn [lex_loop at_end]. subst s. rewrite app_nil_r. done.
    + cbn [lex_loop]. cbv [step]. simpl in Hend.
      destruct (c =? chr ".") eqn:Edot.
      * apply Z.eqb_eq in Edot. subst c.
        replace (Z.to_nat (0 + Z.of_nat (length (chr "$" :: ids))))
          with (length (chr "$" :: ids)) by lia.
        subst s. change (chr "$" :: ids ++ chr "." :: back)
          with ((chr "$" :: ids) ++ chr "." :: back).
        rewrite take_app_length.
        destruct (String.eqb _ _) eqn:Eh.
        -- exfalso. apply Hnot. apply String.eqb_eq in Eh.
           apply string_of_runes_ascii_inv in Eh; [|by vm_compute].
           injection Eh as ->. split; [done | by eexists].
        -- f_equal; simpl; lia.
      * rewrite Hend. f_equal; simpl; lia.
  - intros ids back [Hne Hids] Hend.
    destruct ids as [|c ids]; [done|]. apply Forall_cons in Hids as [Hc Hids].
    change (ascii_runes "$header." ++ (c :: ids) ++ back)
      with (ascii_runes "$header." ++ c :: (ids ++ back)).
    rewrite lex_header_dot. cbn [lex_loop]. cbv [step]. rewrite Hc.
    rewrite (lex_loop_run_states _ ids back stateHeader stateHeader (8 + 1)
               (run_states_header_ids _ ids _ Hids)).
    destruct back as [|d back].
    + cbn [lex_loop at_end]. f_equal.
      rewrite !length_app, app_nil_r. simpl. lia.
    + cbn [lex_loop]. cbv [step]. simpl in Hend. rewrite Hend.
      f_equal; simpl; lia.
  - intros txt back Hne Hno Hend.
    destruct txt as [|c txt]; [done|].
    apply not_elem_of_cons in Hno as [Hc Hno].
    set (s := (c :: txt) ++ back).
    assert (Hrun : run_states s stateStart 0 (c :: txt) = Some stateText).
    { cbn [run_states]. cbv [step].
      replace (c =? chr "$") with false by (symmetry; apply Z.eqb_neq; congruence).
      by apply run_states_text. }
    unfold lex.
    change (lex_loop s stateStart 0 s)
      with (lex_loop s stateStart 0 ((c :: txt) ++ back)).
    rewrite (lex_loop_run_states s _ back _ _ 0 Hrun).
    destruct back as [|d back].
    + cbn [lex_loop at_end]. subst s. by rewrite app_nil_r.
    + cbn [lex_loop]. cbv [step]. simpl in Hend. subst d.
      rewrite Z.eqb_refl. f_equal.
Qed.

(** * Executing a pattern twice *)

(** ** [TestParse], with its nil response *)

Example Proc_TestParse_rows :
  Forall (λ '(format, out),
            Proc.parse_write Proc.test_fields format zero_time zero_time None
              (Some Proc.test_parse_req) = Some (Returns out))
    [ ("", "");
      ("$a", nl "aa");
      ("$a $b", nl "aa bb");
      ("$a " +:+ dquote +:+ "$header.User-Agent" +:+ dquote,
       nl ("aa " +:+ dquote +:+ "Mozilla Firefox" +:+ dquote)) ].
Proof. repeat constructor; vm_compute; reflexivity. Qed.

(** A renderer of the table that reads the response panics on a nil one,
    one that reads the request on a nil request; the renderers of the
    times read neither. *)
Example Proc_nil_pointers :
  Proc.parse_write Proc.fields "$response_status" test_t1 test_t2 None
    (Some test_req) = Some Panics ∧
  Proc.parse_write Proc.fields "$request_uri" test_t1 test_t2
    (Some test_resp) None = Some Panics ∧
  Proc.parse_write Proc.fields "$header.Referer" test_t1 test_t2
    (Some test_resp) None = Some Panics ∧
  Proc.parse_write Proc.fields "$response_time_ms" test_t1 test_t2 None None
  = Some (Returns (nl "0.123")).
Proof. repeat split; vm_compute; reflexivity. Qed.

(** [TestLog], with the response and the request as pointers. *)
Example Proc_TestLog_rows :
  Forall (λ '(format, out),
            Proc.parse_write Proc.fields format test_t1 test_t2
              (Some test_resp) (Some test_req) = Some (Returns (nl out)))
    [ ("$header.Referer", "http://foo.com/");
      ("$header.user-agent", "Mozilla Firefox");
      ("$header.X-Forwarded-For", "3.3.3.3");
      ("$request", "GET /?q=x HTTP/1.1");
      ("$request_args", "?q=x");
      ("$request_host", "foo.com");
      ("$request_method", "GET");
      ("$request_uri", "/?q=x");
      ("$request_proto", "HTTP/1.1");
      ("$remote_addr", "2.2.2.2:666");
      ("$remote_host", "2.2.2.2");
      ("$remote_port", "666");
      ("$response_body_size", "1234");
      ("$response_status", "200");
      ("$response_time_ms", "0.123");
      ("$response_time_us", "0.123456");
      ("$response_time_ns", "0.123456789");
      ("$time_rfc3339", "2016-01-01T00:00:00Z");
      ("$time_rfc3339_ms", "2016-01-01T00:00:00.123Z");
      ("$time_rfc3339_us", "2016-01-01T00:00:00.123456Z");
      ("$time_rfc3339_ns", "2016-01-01T00:00:00.123456789Z");
      ("$time_unix_ms", "1451606400123");
      ("$time_unix_us", "1451606400123456");
      ("$time_unix_ns", "1451606400123456789");
      ("$time_common", "01/Jan/2016:00:00:00 +0000");
      ("$upstream_addr", "5.6.7.8:1234");
      ("$upstream_host", "5.6.7.8");
      ("$upstream_port", "1234") ].
Proof. repeat constructor; vm_compute; reflexivity. Qed.

(** ** Renderers that only read *)

















(** ** The function and the procedure

    With a response and a request at hand, each renderer of the table, as
    a procedure, appends what the function of the same name appends, and
    so does a whole pattern. *)

Lemma fields_list_agree :
  Forall2 (λ (kg : string * option Proc.field) (kf : string * option field),
             kg.1 = kf.1 ∧
             ∃ g f, kg.2 = Some g ∧ kf.2 = Some f ∧ agrees g f)
    Proc.fields_list fields_list.
Proof.
  unfold Proc.fields_list, fields_list.
  repeat (apply Forall2_cons; split;
          [split; [reflexivity|];
           eexists _, _; split_and!; [reflexivity..|];
           intros b t1 t2 w r;
           cbv beta iota zeta delta [Proc.deref Proc.response_time
             Proc.time_rfc3339_frac response_time time_rfc3339_frac
             remote_host remote_port];
           repeat match goal with
                  | |- context [SplitHostPort ?a] =>
                      destruct (SplitHostPort a) as [[? ?] ?]
                  end;
           reflexivity|]).
  constructor.
Qed.

Lemma list_to_map_agree {A B : Type} (R : A → B → Prop)
    (l : list (string * option A)) (m : list (string * option B)) :
  Forall2 (λ kg kf, kg.1 = kf.1 ∧
                    ∃ g f, kg.2 = Some g ∧ kf.2 = Some f ∧ R g f) l m →
  ∀ k,
    match (list_to_map l : gmap string (option A)) !! k,
          (list_to_map m : gmap string (option B)) !! k with
    | Some (Some g), Some (Some f) => R g f
    | None, None => True
    | _, _ => False
    end.
Proof.
  induction 1 as [|[k1 og] [k2 of_] l m [Hk (g & f & Hg & Hf & HR)] _ IH];
    intros k; simpl in *.
  - by rewrite !lookup_empty.
  - subst. destruct (decide (k2 = k)) as [->|Hne].
    + by rewrite !lookup_insert_eq.
    + rewrite !lookup_insert_ne by done. apply IH.
Qed.

Lemma fields_agree (k : string) :
  match Proc.fields !! k, fields !! k with
  | Some (Some g), Some (Some f) => agrees g f
  | None, None => True
  | _, _ => False
  end.
Proof. apply (list_to_map_agree agrees), fields_list_agree. Qed.

Lemma parse_loop_agrees (fuel : nat) :
  ∀ s q p p',
    Forall2 agrees q p →
    parse_loop fuel fields s p = Returns (p', None) →
    ∃ q', Proc.parse_loop fuel Proc.fields s q = Returns (q', None) ∧
          Forall2 agrees q' p'.
Proof.
  induction fuel as [|fuel IH]; intros s q p p' Hqp; [done|].
  cbn [parse_loop Proc.parse_loop].
  destruct (Z.of_nat (length s) =? 0); [intros [= <-]; by exists q|].
  destruct (lex s) as [typ n].
  destruct (slice_to s n) as [front|]; [|done].
  destruct (slice_from s n) as [back|]; [|done].
  cbv zeta. destruct typ.
  - apply IH. apply Forall2_app; [done|].
    constructor; [by intros b t1 t2 w r | constructor].
  - unfold index_fields.
    pose proof (fields_agree (string_of_runes front)) as Hk.
    destruct (fields !! string_of_runes front) as [[f|]|];
      destruct (Proc.fields !! string_of_runes front) as [[g|]|];
      simpl; try done.
    apply IH. apply Forall2_app; [done|]. by repeat constructor.
  - destruct (Str.slice_from _ _) as [name|]; [|done].
    apply IH. apply Forall2_app; [done|].
    constructor; [by intros b t1 t2 w r | constructor].
Qed.

Lemma render_agrees (q : Proc.pattern) (p : pattern) (t1 t2 : Time)
    (w : http_Response) (r : http_Request) :
  Forall2 agrees q p →
  ∀ b, Proc.render q b t1 t2 (Some w) (Some r)
       = Returns (render p b t1 t2 w r, Some w, Some r).
Proof.
  unfold render. induction 1 as [|g f q p Hgf _ IH]; intros b; simpl; [done|].
  by rewrite Hgf, IH.
Qed.

(** What is proved of [parse], [render] and [write] as functions holds of
    the procedures whenever response and request are not nil: the same
    formats compile, the same bytes are written, and response and request
    are left as they were. *)
Lemma write_agrees (format : string) (p : pattern) :
  parse format fields = Returns (p, None) →
  ∃ q, Proc.parse format Proc.fields = Returns (q, None) ∧
       ∀ b t1 t2 w r,
         Proc.write q b t1 t2 (Some w) (Some r)
         = Returns (write p b t1 t2 w r, Some w, Some r).
Proof.
  intros Hp.
  destruct (parse_loop_agrees _ _ [] [] p ltac:(constructor) Hp)
    as (q & Hq & Hqp).
  exists q. split; [done|]. intros b t1 t2 w r.
  unfold Proc.write, write. rewrite (render_agrees q p t1 t2 w r Hqp).
  by destruct (Len _ =? 0).
Qed.

(** ** A renderer that writes to the request

    The type of a renderer lets it change the request. With such a
    renderer in the table a second execution does not give the bytes of
    the first. *)
Example method_once_differs :
  Proc.parse_write_twice method_once_fields "$method_once" test_t1 test_t2
    (Some test_resp) (Some test_req)
  = Some (Returns (nl "GET", nl "-")).
Proof. vm_compute. reflexivity. Qed.

(** ** Two executions of a compiled pattern *)


